(** * Pii-Sanitizer: the masking engine of [src/index.ts], embedded and verified

    The development follows the source file top to bottom: the JSON-like
    values the engine walks, the runtime services it calls ([Buffer],
    [node:crypto], [RegExp]), the [Sanitizer] class method by method, and
    then the properties of the specification settled against that code.

    Conventions of the embedding.
    - A JavaScript string is a [string]: the sequence of the bytes of its
      UTF-8 form, generalised so that every string has one: an unpaired
      surrogate, which UTF-8 proper cannot write, is written as the three
      bytes ED A0..BF 80..BF that its code would take (the form known as
      WTF-8).  [Buffer.from(s, "utf8")] writes U+FFFD for such a
      surrogate, [buf.toString("utf8")] writes U+FFFD for bytes that are
      not well-formed UTF-8, and [Buffer.from(s, "hex")] reads the low
      byte of each UTF-16 code unit; the three are written out below.
      A [string] that is the form of no JavaScript string stands for no
      input of the program.
    - A [Buffer] is a [list byte].
    - A method that can throw returns a [Res]; a method that draws random
      bytes runs in the monad [M], which threads the random source. *)

From Stdlib Require Import List String Ascii Bool Arith NArith Lia.
From Stdlib Require Import Strings.Byte Floats.PrimFloat.
Import ListNotations.

Local Open Scope string_scope.
Local Open Scope nat_scope.
Local Open Scope list_scope.

(* ================================================================== *)
(** * Exceptions and the two monads                                    *)
(* ================================================================== *)

(** The exceptions that the code under study can raise.  The source defines
    no error class of its own: apart from the constructor's [Error], every
    exception comes from the runtime. *)
Inductive Exn : Type :=
| Error_signingSecret_required   (* thrown by the constructor *)
| TypeError                      (* property read on undefined, Buffer.from(undefined) *)
| SyntaxError                    (* new RegExp on a pattern that does not compile *)
| ERR_CRYPTO_INVALID_KEYLEN      (* createCipheriv / createDecipheriv: key is not 32 bytes *)
| ERR_CRYPTO_INVALID_IV.         (* createCipheriv / createDecipheriv: iv is not 16 bytes *)

Inductive Res (A : Type) : Type :=
| Ok (a : A)
| Throw (e : Exn).
Arguments Ok {A} a.
Arguments Throw {A} e.

Definition Res_bind {A B} (c : Res A) (k : A -> Res B) : Res B :=
  match c with
  | Ok a => k a
  | Throw e => Throw e
  end.

(** The random source of [randomBytes]: an unbounded tape of bytes and the
    position of the next unread one. *)
Record Rng : Type := { tape : nat -> byte; pos : nat }.

Definition M (A : Type) : Type := Rng -> Res (A * Rng).

Definition ret {A} (a : A) : M A := fun r => Ok (a, r).

Definition bind {A B} (c : M A) (k : A -> M B) : M B :=
  fun r => match c r with
           | Ok (a, r') => k a r'
           | Throw e => Throw e
           end.

Definition lift {A} (c : Res A) : M A :=
  fun r => match c with
           | Ok a => Ok (a, r)
           | Throw e => Throw e
           end.

Declare Scope js_scope.
Delimit Scope js_scope with js.
Notation "x <- c ;; k" := (bind c (fun x => k))
  (at level 61, c at next level, right associativity) : js_scope.
Notation "x <-? c ;; k" := (Res_bind c (fun x => k))
  (at level 61, c at next level, right associativity) : js_scope.
Local Open Scope js_scope.

(** [crypto.randomBytes(n)]: the next [n] bytes of the tape. *)
Definition randomBytes (n : nat) : M (list byte) :=
  fun r => Ok (map (fun i => tape r (pos r + i)) (seq 0 n),
               {| tape := tape r; pos := pos r + n |}).

(* ================================================================== *)
(** * Strings                                                          *)
(* ================================================================== *)

Fixpoint take (n : nat) (s : string) : string :=
  match n, s with
  | S n', String c s' => String c (take n' s')
  | _, _ => ""
  end.

Fixpoint drop (n : nat) (s : string) : string :=
  match n, s with
  | S n', String _ s' => drop n' s'
  | _, _ => s
  end.

(** [s.substring(from, to)] for [from <= to]. *)
Definition slice (s : string) (from to : nat) : string :=
  take (to - from) (drop from s).

(** [s.includes(c)] for a one-character needle. *)
Fixpoint includes_char (c : ascii) (s : string) : bool :=
  match s with
  | "" => false
  | String a s' => Ascii.eqb a c || includes_char c s'
  end.

(** [s.split(c)] for a one-character separator: never the empty list. *)
Fixpoint split (sep : ascii) (s : string) : list string :=
  match s with
  | "" => [""]
  | String a s' =>
      if Ascii.eqb a sep then "" :: split sep s'
      else match split sep s' with
           | seg :: segs => String a seg :: segs
           | [] => [String a ""]
           end
  end.

Definition in_range (lo hi : ascii) (c : ascii) : bool :=
  Nat.leb (nat_of_ascii lo) (nat_of_ascii c) && Nat.leb (nat_of_ascii c) (nat_of_ascii hi).
Arguments in_range (lo hi c)%_char.

(** [s.toLowerCase()].  The letters A-Z are mapped to a-z; every other
    byte is kept.  (The Unicode case mapping of letters outside ASCII is
    not modelled; it cannot complete any of the ASCII words that the
    classifier looks for in a lowered key.) *)
Definition lower_char (c : ascii) : ascii :=
  if in_range "A" "Z" c then ascii_of_nat (nat_of_ascii c + 32) else c.

Fixpoint toLowerCase (s : string) : string :=
  match s with
  | "" => ""
  | String c s' => String (lower_char c) (toLowerCase s')
  end.

(** [arr.includes(x)] on an array of strings. *)
Definition includes (l : list string) (x : string) : bool :=
  existsb (String.eqb x) l.

(* ================================================================== *)
(** * Buffers: hexadecimal and UTF-8                                   *)
(* ================================================================== *)

Definition Buffer : Type := list byte.

(** U+FFFD, the replacement character: EF BF BD. *)
Definition U_FFFD : string := String "239" (String "191" (String "189" "")).

(** The three bytes of an unpaired surrogate, U+D800..U+DFFF: ED, then
    A0..BF, then 80..BF.  (A surrogate pair is one character above U+FFFF
    and takes four bytes.) *)
Definition surrogate_form (c0 c1 c2 : ascii) : bool :=
  in_range "237" "237" c0 && in_range "160" "191" c1 && in_range "128" "191" c2.

(** [s.toWellFormed()]: each unpaired surrogate becomes U+FFFD. *)
Fixpoint toWellFormed (s : string) : string :=
  match s with
  | "" => ""
  | String c0 s0 =>
      match s0 with
      | String c1 (String c2 s2) =>
          if surrogate_form c0 c1 c2 then (U_FFFD ++ toWellFormed s2)%string
          else String c0 (toWellFormed s0)
      | _ => String c0 (toWellFormed s0)
      end
  end.

(** The first byte of a UTF-8 sequence of more than one byte: how many
    bytes follow it, and the range in which the first of them must lie
    (the Unicode standard's table of well-formed byte sequences).  The
    bytes after that one lie in 80..BF. *)
Definition utf8_lead (c : ascii) : option (nat * ascii * ascii) :=
  if in_range "194" "223" c then Some (1, "128", "191")%char
  else if in_range "224" "224" c then Some (2, "160", "191")%char
  else if in_range "225" "236" c then Some (2, "128", "191")%char
  else if in_range "237" "237" c then Some (2, "128", "159")%char
  else if in_range "238" "239" c then Some (2, "128", "191")%char
  else if in_range "240" "240" c then Some (3, "144", "191")%char
  else if in_range "241" "243" c then Some (3, "128", "191")%char
  else if in_range "244" "244" c then Some (3, "128", "143")%char
  else None.

(** [s.isWellFormed()]: the string holds no unpaired surrogate, that is,
    its bytes are well-formed UTF-8. *)
Fixpoint isWellFormed (s : string) : bool :=
  match s with
  | "" => true
  | String c0 s0 =>
      if in_range "000" "127" c0 then isWellFormed s0
      else
        match utf8_lead c0, s0 with
        | Some (1, lo, hi), String c1 s1 =>
            in_range lo hi c1 && isWellFormed s1
        | Some (2, lo, hi), String c1 (String c2 s2) =>
            in_range lo hi c1 && in_range "128" "191" c2 && isWellFormed s2
        | Some (3, lo, hi), String c1 (String c2 (String c3 s3)) =>
            in_range lo hi c1 && in_range "128" "191" c2 && in_range "128" "191" c3
            && isWellFormed s3
        | _, _ => false
        end
  end.

(** The runtime's UTF-8 decoder.  A well-formed sequence is kept; bytes
    that begin no well-formed sequence are replaced, each longest run of
    them that begins one being written as a single U+FFFD, and decoding
    resumes at the byte that broke the sequence. *)
Fixpoint utf8_decode (s : string) : string :=
  match s with
  | "" => ""
  | String c0 s0 =>
      if in_range "000" "127" c0 then String c0 (utf8_decode s0)
      else
        match utf8_lead c0 with
        | None => (U_FFFD ++ utf8_decode s0)%string
        | Some (n, lo, hi) =>
            match s0 with
            | "" => U_FFFD
            | String c1 s1 =>
                if negb (in_range lo hi c1) then (U_FFFD ++ utf8_decode s0)%string
                else if n =? 1 then String c0 (String c1 (utf8_decode s1))
                else
                  match s1 with
                  | "" => U_FFFD
                  | String c2 s2 =>
                      if negb (in_range "128" "191" c2)
                      then (U_FFFD ++ utf8_decode s1)%string
                      else if n =? 2
                      then String c0 (String c1 (String c2 (utf8_decode s2)))
                      else
                        match s2 with
                        | "" => U_FFFD
                        | String c3 s3 =>
                            if negb (in_range "128" "191" c3)
                            then (U_FFFD ++ utf8_decode s2)%string
                            else String c0 (String c1 (String c2 (String c3
                                   (utf8_decode s3))))
                        end
                  end
            end
        end
  end.

(** [Buffer.from(s, "utf8")]: the UTF-8 bytes of the string, U+FFFD
    standing for each unpaired surrogate. *)
Definition Buffer_from_utf8 (s : string) : Buffer :=
  list_byte_of_string (toWellFormed s).

(** [buf.toString("utf8")]. *)
Definition Buffer_toString_utf8 (b : Buffer) : string :=
  utf8_decode (string_of_list_byte b).

(** The low six bits of a byte. *)
Definition six_bits (c : ascii) : N := (N_of_ascii c mod 64)%N.

(** The UTF-16 code units of a string, read off its bytes: one unit for
    a sequence of one, two or three bytes, a surrogate pair for a sequence
    of four. *)
Fixpoint utf16 (s : string) : list N :=
  match s with
  | "" => []
  | String c0 s0 =>
      let b0 := N_of_ascii c0 in
      if in_range "000" "127" c0 then b0 :: utf16 s0
      else
        match s0 with
        | String c1 s1 =>
            if in_range "192" "223" c0
            then ((b0 mod 32) * 64 + six_bits c1)%N :: utf16 s1
            else
              match s1 with
              | String c2 s2 =>
                  if in_range "224" "239" c0
                  then ((b0 mod 16) * 4096 + six_bits c1 * 64 + six_bits c2)%N
                         :: utf16 s2
                  else
                    match s2 with
                    | String c3 s3 =>
                        if in_range "240" "247" c0
                        then
                          let cp := ((b0 mod 8) * 262144 + six_bits c1 * 4096
                                     + six_bits c2 * 64 + six_bits c3)%N in
                          (55296 + (cp - 65536) / 1024)%N
                            :: (56320 + (cp - 65536) mod 1024)%N :: utf16 s3
                        else b0 :: utf16 s0
                    | "" => b0 :: utf16 s0
                    end
              | "" => b0 :: utf16 s0
              end
        | "" => b0 :: utf16 s0
        end
  end.

Definition low_byte (u : N) : ascii := ascii_of_N (u mod 256).

Definition hex_digit (n : nat) : ascii :=
  match String.get n "0123456789abcdef" with
  | Some c => c
  | None => "0"%char
  end.

(** The value of a hexadecimal digit, in either case; [None] for any other
    character. *)
Definition unhex (c : ascii) : option nat :=
  if in_range "0" "9" c then Some (nat_of_ascii c - 48)
  else if in_range "a" "f" c then Some (nat_of_ascii c - 87)
  else if in_range "A" "F" c then Some (nat_of_ascii c - 55)
  else None.

Definition byte_of_nibbles (hi lo : nat) : byte :=
  match Byte.of_nat (16 * hi + lo) with
  | Some b => b
  | None => x00
  end.

(** [buf.toString("hex")]: two lowercase digits per byte. *)
Fixpoint Buffer_toString_hex (b : Buffer) : string :=
  match b with
  | [] => ""
  | x :: b' =>
      String (hex_digit (Byte.to_nat x / 16))
        (String (hex_digit (Byte.to_nat x mod 16)) (Buffer_toString_hex b'))
  end.

(** [Buffer.from(s, "hex")]: the code units of the string are read two
    by two, each through its low byte only (so U+0130 reads as the digit
    0); decoding stops, without an error, at the first pair that is not
    two hexadecimal digits (and a trailing single unit is dropped). *)
Fixpoint hex_pairs (units : list N) : Buffer :=
  match units with
  | a :: b :: rest =>
      match unhex (low_byte a), unhex (low_byte b) with
      | Some hi, Some lo => byte_of_nibbles hi lo :: hex_pairs rest
      | _, _ => []
      end
  | _ => []
  end.

Definition Buffer_from_hex (s : string) : Buffer := hex_pairs (utf16 s).

Definition bxor (a b : byte) : byte :=
  let '(a0, (a1, (a2, (a3, (a4, (a5, (a6, a7))))))) := Byte.to_bits a in
  let '(b0, (b1, (b2, (b3, (b4, (b5, (b6, b7))))))) := Byte.to_bits b in
  Byte.of_bits (xorb a0 b0, (xorb a1 b1, (xorb a2 b2, (xorb a3 b3,
               (xorb a4 b4, (xorb a5 b5, (xorb a6 b6, xorb a7 b7))))))).

(* ================================================================== *)
(** * node:crypto                                                      *)
(* ================================================================== *)

(** The two primitives of [node:crypto] that the codec rests on.  Their
    code is not part of the repository, so they are taken as an interface:
    the SHA-256 digest (always 32 bytes) and the AES-256 block encryption
    (key, 16-byte block).  The counter mode itself is written out below. *)
Class NodeCrypto : Type := {
  sha256 : Buffer -> Buffer;
  sha256_length : forall m, List.length (sha256 m) = 32;
  aes256_encrypt_block : Buffer -> Buffer -> Buffer
}.

(** Big-endian value of a block, and the [n] low bytes of a number. *)
Fixpoint be_value (b : Buffer) (acc : N) : N :=
  match b with
  | [] => acc
  | x :: b' => be_value b' (acc * 256 + Byte.to_N x)%N
  end.

Definition byte_of_N (v : N) : byte :=
  match Byte.of_N (v mod 256)%N with
  | Some b => b
  | None => x00
  end.

Fixpoint be_bytes (n : nat) (v : N) : Buffer :=
  match n with
  | 0 => []
  | S n' => be_bytes n' (v / 256)%N ++ [byte_of_N v]
  end.

Section CounterMode.
Context `{NodeCrypto}.

(** Counter mode: block [i] of the key stream is the encryption of the
    initialization vector, read as a 128-bit big-endian number, plus [i]
    (wrapping around). *)
Definition counter_block (iv : Buffer) (i : nat) : Buffer :=
  be_bytes 16 (be_value iv 0 + N.of_nat i)%N.

Definition keystream_byte (key iv : Buffer) (j : nat) : byte :=
  nth (j mod 16) (aes256_encrypt_block key (counter_block iv (j / 16))) x00.

(** [cipher.update(data)] followed by [cipher.final()], from stream
    offset [j]: counter mode has no padding, the output is the input
    XORed with the key stream. *)
Fixpoint ctr_xor (key iv : Buffer) (j : nat) (data : Buffer) : Buffer :=
  match data with
  | [] => []
  | x :: data' => bxor x (keystream_byte key iv j) :: ctr_xor key iv (S j) data'
  end.

(** [createCipheriv("aes-256-ctr", key, iv)] and
    [createDecipheriv("aes-256-ctr", key, iv)]: both check the lengths
    of the initialization vector and of the key, and both yield the same
    transformation. *)
Definition createCipheriv (key iv : Buffer) : Res (Buffer -> Buffer) :=
  if negb (List.length iv =? 16) then Throw ERR_CRYPTO_INVALID_IV
  else if negb (List.length key =? 32) then Throw ERR_CRYPTO_INVALID_KEYLEN
  else Ok (ctr_xor key iv 0).

Definition createDecipheriv (key iv : Buffer) : Res (Buffer -> Buffer) :=
  createCipheriv key iv.
End CounterMode.

(* ================================================================== *)
(** * RegExp                                                           *)
(* ================================================================== *)

(** ** Configured patterns

    The patterns of [regexToSanitize] are arbitrary sources handed to
    [new RegExp(reStr, "g")]; the engine that compiles and runs them is
    the runtime's.  It is taken as an interface, in the terms of the
    language standard: compiling a source yields a matcher (or fails), and
    a matcher tried at an index of a string yields the end index of the
    match that starts there, if there is one. *)
Class RegExpEngine : Type := {
  RegExp : Type;
  RegExp_compile : string -> option RegExp;
  matcher : RegExp -> string -> nat -> option nat;
  matcher_bounds : forall re s i e,
      matcher re s i = Some e -> i <= e <= String.length s
}.

Section RegExpObjects.
Context `{RegExpEngine}.

(** [new RegExp(reStr, "g")]. *)
Definition RegExp_new (reStr : string) : Res RegExp :=
  match RegExp_compile reStr with
  | Some re => Ok re
  | None => Throw SyntaxError
  end.

(** The standard's RegExpBuiltinExec for a global pattern whose
    [lastIndex] is [lastIndex]: the matcher is tried at [lastIndex], then
    at each later index up to the length of the string; [n] counts the
    indices left to try.  The result is the start and end of the match. *)
Fixpoint exec_scan (re : RegExp) (s : string) (n : nat) (i : nat)
  : option (nat * nat) :=
  match n with
  | 0 => None
  | S n' =>
      match matcher re s i with
      | Some e => Some (i, e)
      | None => exec_scan re s n' (S i)
      end
  end.

Definition RegExp_exec (re : RegExp) (s : string) (lastIndex : nat)
  : option (nat * nat) :=
  if String.length s <? lastIndex then None
  else exec_scan re s (String.length s - lastIndex + 1) lastIndex.

(** [re.test(s)] on a freshly built pattern ([lastIndex] is 0). *)
Definition RegExp_test (re : RegExp) (s : string) : bool :=
  match RegExp_exec re s 0 with
  | Some _ => true
  | None => false
  end.

(** The matches that [s.replace(re, f)] collects for a global pattern:
    [lastIndex] is reset to 0 and [exec] is repeated until it fails;
    after a match, [lastIndex] is the end of the match, moved one further
    when the match is empty.  [fuel] bounds the number of rounds. *)
Fixpoint collect_matches (re : RegExp) (s : string) (fuel : nat) (lastIndex : nat)
  : list (nat * nat) :=
  match fuel with
  | 0 => []
  | S fuel' =>
      match RegExp_exec re s lastIndex with
      | None => []
      | Some (i, e) =>
          (i, e) :: collect_matches re s fuel' (if e =? i then e + 1 else e)
      end
  end.

(** Every round moves [lastIndex] forward, and a round that starts past
    the end of the string fails: [length s + 2] rounds are enough. *)
Definition all_matches (re : RegExp) (s : string) : list (nat * nat) :=
  collect_matches re s (String.length s + 2) 0.

(** The second half of [s.replace(re, f)]: the replacer [f] is called on
    each match in order, and the result is assembled from the text
    between the matches and the replacements. *)
Fixpoint splice (s : string) (results : list (nat * nat))
         (nextSourcePosition : nat) (f : string -> M string) : M string :=
  match results with
  | [] => ret (drop nextSourcePosition s)
  | (position, e) :: results' =>
      replacement <- f (slice s position e) ;;
      rest <- splice s results' e f ;;
      ret (slice s nextSourcePosition position ++ replacement ++ rest)%string
  end.

Definition String_replace (s : string) (re : RegExp) (f : string -> M string)
  : M string :=
  splice s (all_matches re s) 0 f.
End RegExpObjects.

(** ** Pattern literals

    The patterns written in the source as literals use character classes,
    counted repetition of a class, words, sequence, alternation and the
    two anchors.  They are only ever used through [test], so a matcher
    that answers whether some match exists is all that is needed. *)
Inductive pattern : Type :=
| Word (w : string)                                        (* the characters of w *)
| Class (p : ascii -> bool)                                (* [...] or \d, once *)
| Repeat (p : ascii -> bool) (lo : nat) (hi : option nat)  (* class{lo,hi}; + is {1,} *)
| Seq (a b : pattern)
| Alt (a b : pattern).

Record RegExpLiteral : Type := {
  anchored_start : bool;   (* the pattern begins with ^ *)
  body : pattern;
  anchored_end : bool      (* the pattern ends with $ *)
}.

Fixpoint strip_prefix (w s : string) : option string :=
  match w, s with
  | "", _ => Some s
  | String a w', String b s' => if Ascii.eqb a b then strip_prefix w' s' else None
  | String _ _, "" => None
  end.

(** [match_repeat p lo hi s k]: some number [n] of leading characters of
    [s], with [lo <= n <= hi], all in class [p], can be consumed so that
    the continuation [k] accepts what is left. *)
Fixpoint match_repeat (p : ascii -> bool) (lo : nat) (hi : option nat)
         (s : string) (k : string -> bool) {struct s} : bool :=
  (match lo with 0 => k s | S _ => false end)
  || match s with
     | "" => false
     | String c s' =>
         match hi with
         | Some 0 => false
         | _ => p c && match_repeat p (Nat.pred lo) (option_map Nat.pred hi) s' k
         end
     end.

Fixpoint match_here (r : pattern) (s : string) (k : string -> bool) : bool :=
  match r with
  | Word w => match strip_prefix w s with Some s' => k s' | None => false end
  | Class p => match s with String c s' => p c && k s' | "" => false end
  | Repeat p lo hi => match_repeat p lo hi s k
  | Seq a b => match_here a s (fun s' => match_here b s' k)
  | Alt a b => match_here a s k || match_here b s k
  end.

Definition match_at (re : RegExpLiteral) (s : string) : bool :=
  match_here (body re) s
    (fun rest => if anchored_end re then String.eqb rest "" else true).

(** A pattern without [^] is tried at every index, the end included. *)
Fixpoint match_anywhere (re : RegExpLiteral) (s : string) : bool :=
  match_at re s
  || match s with
     | "" => false
     | String _ s' => match_anywhere re s'
     end.

(** [literal.test(s)]: the literal is evaluated anew at each call, so its
    [lastIndex] is 0 whether or not it carries the [g] flag. *)
Definition test (re : RegExpLiteral) (s : string) : bool :=
  if anchored_start re then match_at re s else match_anywhere re s.

Definition digit : ascii -> bool := in_range "0" "9".
Definition upper : ascii -> bool := in_range "A" "Z".
Definition letter (c : ascii) : bool := in_range "a" "z" c || in_range "A" "Z" c.
Definition alnum (c : ascii) : bool := letter c || digit c.
Definition one_of (cs : string) (c : ascii) : bool := includes_char c cs.

Definition unanchored (r : pattern) : RegExpLiteral :=
  {| anchored_start := false; body := r; anchored_end := false |}.

(** /^[A-Z]{5}\d{4}[A-Z]$/g *)
Definition re_pan_value : RegExpLiteral :=
  {| anchored_start := true;
     body := Seq (Repeat upper 5 (Some 5)) (Seq (Repeat digit 4 (Some 4)) (Class upper));
     anchored_end := true |}.
(** /pan|pan_card/ *)
Definition re_pan_key : RegExpLiteral := unanchored (Alt (Word "pan") (Word "pan_card")).
(** /^\d{10}/g *)
Definition re_phone_value : RegExpLiteral :=
  {| anchored_start := true; body := Repeat digit 10 (Some 10); anchored_end := false |}.
(** /mobile|phone/ *)
Definition re_phone_key : RegExpLiteral := unanchored (Alt (Word "mobile") (Word "phone")).
(** /^\d{12}/g *)
Definition re_aadhar_value : RegExpLiteral :=
  {| anchored_start := true; body := Repeat digit 12 (Some 12); anchored_end := false |}.
(** /cvv|cvc|cvn|cid/ *)
Definition re_cvv_key : RegExpLiteral :=
  unanchored (Alt (Word "cvv") (Alt (Word "cvc") (Alt (Word "cvn") (Word "cid")))).
(** /\d{2,4}/ *)
Definition re_cvv_value : RegExpLiteral := unanchored (Repeat digit 2 (Some 4)).
(** /^[a-zA-Z0-9._%+-]+@[a-zA-Z0-9]+\.[a-zA-Z]{2,}$/ *)
Definition re_email_value : RegExpLiteral :=
  {| anchored_start := true;
     body := Seq (Repeat (fun c => alnum c || one_of "._%+-" c) 1 None)
            (Seq (Word "@")
            (Seq (Repeat alnum 1 None)
            (Seq (Word ".")
                 (Repeat letter 2 None))));
     anchored_end := true |}.
(** /password|pwd|passphrase/ *)
Definition re_password_key : RegExpLiteral :=
  unanchored (Alt (Word "password") (Alt (Word "pwd") (Word "passphrase"))).
(** /credit|debit/ *)
Definition re_card_key : RegExpLiteral := unanchored (Alt (Word "credit") (Word "debit")).

(* ================================================================== *)
(** * The data of the engine                                           *)
(* ================================================================== *)

Inductive PiiType : Type :=
| pan_card | credit_card | cvv | password | email | phone | aadhar | custom.

Definition PiiType_eqb (a b : PiiType) : bool :=
  match a, b with
  | pan_card, pan_card | credit_card, credit_card | cvv, cvv
  | password, password | email, email | phone, phone
  | aadhar, aadhar | custom, custom => true
  | _, _ => false
  end.

(** An entry of [allowlistRoutes] / [denylistRoutes]. *)
Inductive Route : Type :=
| RouteString (s : string)
| RouteRegExp (source : string).

Record PiiSanitizerConfig : Type := {
  signingSecret : string;
  allowlistRoutes : option (list Route);
  denylistRoutes : option (list Route);
  disable : option bool;
  regexToSanitize : option (list string);
  detectors : option PiiType;
  fieldsToSanitize : option (list string);
  fieldsToSkip : option (list string);
  maxStringScanLen : option nat
}.

(** The values that reach [sanitizeObject] and [decodeBody]: parsed JSON,
    and [undefined], which [walk] can produce.  The entries of an object
    are listed in the order of [Object.entries]. *)
#[warnings="-register-all"]
Inductive Value : Type :=
| VUndefined
| VNull
| VBoolean (b : bool)
| VNumber (n : float)
| VString (s : string)
| VArray (items : list Value)
| VObject (entries : list (string * Value)).

(** [out[k] = v] on an object built from [{}]: an existing key keeps its
    place and takes the new value, a new key goes last.  The key
    [__proto__] is not stored: the assignment reaches the accessor
    inherited from [Object.prototype] and creates no own property. *)
Fixpoint assoc_set (out : list (string * Value)) (k : string) (v : Value)
  : list (string * Value) :=
  match out with
  | [] => [(k, v)]
  | (k', v') :: out' =>
      if String.eqb k' k then (k, v) :: out' else (k', v') :: assoc_set out' k v
  end.

Definition obj_set (out : list (string * Value)) (k : string) (v : Value)
  : list (string * Value) :=
  if String.eqb k "__proto__" then out else assoc_set out k v.

(** [path[path.length - 1]]: [undefined] on the empty path. *)
Definition last_segment (path : list string) : option string :=
  List.last (map Some path) None.

(** [list?.includes(key)]: [undefined] (falsy) when the list is absent;
    an [undefined] key is not an element of an array of strings. *)
Definition opt_includes (l : option (list string)) (key : option string) : bool :=
  match l, key with
  | Some l, Some k => includes l k
  | _, _ => false
  end.

(** [routes.includes(route)] for a string [route]: only a string entry can
    be equal to it. *)
Definition routes_include (routes : list Route) (route : string) : bool :=
  existsb (fun r => match r with
                    | RouteString s => String.eqb s route
                    | RouteRegExp _ => false
                    end) routes.

(* ================================================================== *)
(** * class Sanitizer                                                  *)
(* ================================================================== *)

Record Sanitizer : Type := { cfg : PiiSanitizerConfig }.

(** [constructor(cfg)]: an empty secret is refused. *)
Definition Sanitizer_new (c : PiiSanitizerConfig) : Res Sanitizer :=
  if String.eqb (signingSecret c) "" then Throw Error_signingSecret_required
  else Ok {| cfg := c |}.

(** ** The classifier *)

(** A JavaScript number as the Luhn loop uses it: [None] is [NaN]. *)
Definition number : Type := option nat.

(** [parseInt(num[i], 10)] on the one-character string [num[i]]. *)
Definition parseInt (c : option ascii) : number :=
  match c with
  | Some c => if digit c then Some (nat_of_ascii c - 48) else None
  | None => None
  end.

Definition number_add (a b : number) : number :=
  match a, b with
  | Some x, Some y => Some (x + y)
  | _, _ => None
  end.

(** The body of the loop of [luhnAlgorithm] for [i = i1 - 1] down to 0. *)
Fixpoint luhn_loop (num : string) (i1 : nat) (sum : number) (alt : bool) : number :=
  match i1 with
  | 0 => sum
  | S i =>
      let n := parseInt (String.get i num) in
      let n := if alt
               then match n with
                    | Some d => if 9 <? d * 2 then Some (d * 2 - 9) else Some (d * 2)
                    | None => None
                    end
               else n in
      luhn_loop num i (number_add sum n) (negb alt)
  end.

Definition luhnAlgorithm (num : string) : bool :=
  match luhn_loop num (String.length num) (Some 0) false with
  | Some sum => sum mod 10 =? 0
  | None => false
  end.

(** [key] is typed [any]; it is [undefined] when the leaf has no enclosing
    field, and then [key.toLowerCase()] throws. *)
Definition detectPatternToSanitize (key : option string) (value : string) : Res PiiType :=
  match key with
  | None => Throw TypeError
  | Some key =>
      let lowerKey := toLowerCase key in
      if test re_pan_value value || test re_pan_key lowerKey then Ok pan_card
      else if test re_phone_value value || test re_phone_key lowerKey then Ok phone
      else if test re_aadhar_value value then Ok aadhar
      else if test re_cvv_key lowerKey || test re_cvv_value value then Ok cvv
      else if test re_email_value value then Ok email
      else if test re_password_key lowerKey then Ok password
      else if test re_card_key lowerKey
              || ((13 <? String.length value) && (String.length value <? 19)
                  && luhnAlgorithm value) then Ok credit_card
      else Ok custom
  end.

(** What the Express adapter reads and writes of a request. *)
Record Request : Type := { req_url : option string; req_body : Value }.

Section Methods.
Context `{NodeCrypto} `{RegExpEngine}.
Variable this : Sanitizer.

(** ** The codec *)

Definition getKey : Buffer :=
  sha256 (Buffer_from_utf8 (signingSecret (cfg this))).

Definition encodeValue (val : string) : M string :=
  iv <- randomBytes 16 ;;
  let key := getKey in
  cipher <- lift (createCipheriv key iv) ;;
  let encrypted := cipher (Buffer_from_utf8 val) in
  ret (Buffer_toString_hex iv ++ ":" ++ Buffer_toString_hex encrypted)%string.

(** The destructuring [[ivHex, encryptedHex] = data.split(":")] reads the
    first two segments and ignores any other; with a single segment,
    [encryptedHex] is [undefined] and [Buffer.from] throws. *)
Definition decodeValue (data : string) : Res string :=
  match split ":" data with
  | ivHex :: encryptedHex :: _ =>
      let iv := Buffer_from_hex ivHex in
      let encryptedText := Buffer_from_hex encryptedHex in
      decipher <-? createDecipheriv getKey iv ;;
      Ok (Buffer_toString_utf8 (decipher encryptedText))
  | _ => Throw TypeError
  end.

Definition maskPattern (piiType : PiiType) (val : string) : M string :=
  match piiType with
  | aadhar => encodeValue val
  | credit_card => encodeValue val
  | email => encodeValue val
  | cvv => encodeValue val
  | pan_card => encodeValue val
  | password => encodeValue val
  | phone => encodeValue val
  | custom => encodeValue val
  end.

(** ** The walkers *)

(** The loop over [regexToSanitize] in [walk]: [Some out] when a pattern
    matched and the function returned [out], [None] when the loop ran to
    its end. *)
Fixpoint regex_loop (patterns : list string) (val : string) : M (option string) :=
  match patterns with
  | [] => ret None
  | reStr :: patterns' =>
      re <- lift (RegExp_new reStr) ;;
      if RegExp_test re val
      then out <- String_replace val re (fun m => maskPattern custom m) ;;
           ret (Some out)
      else regex_loop patterns' val
  end.

(** The branch of [walk] for [typeof val == "string"]. *)
Definition walk_string (val : string) (path : list string) : M Value :=
  let key := last_segment path in
  if opt_includes (fieldsToSkip (cfg this)) key then ret (VString val)
  else
    masked <- match regexToSanitize (cfg this) with
              | Some ((_ :: _) as patterns) => regex_loop patterns val
              | _ => ret None
              end ;;
    match masked with
    | Some out => ret (VString out)
    | None =>
        match fieldsToSanitize (cfg this) with
        | Some fields =>
            if opt_includes (Some fields) key
            then piiType <- lift (detectPatternToSanitize key val) ;;
                 out <- maskPattern piiType val ;;
                 ret (VString out)
            else ret (VString val)
        | None =>
            piiType <- lift (detectPatternToSanitize key val) ;;
            if negb (PiiType_eqb piiType custom)
            then out <- maskPattern piiType val ;;
                 ret (VString out)
            else ret (VString val)
        end
    end.

(** [walk]: an object is rebuilt entry by entry, a string goes through
    the leaf policy, and for any other value (array, number, boolean,
    null, undefined) no branch applies and the function ends without a
    [return]: its result is [undefined]. *)
Fixpoint walk (val : Value) (path : list string) {struct val} : M Value :=
  match val with
  | VObject entries =>
      (fix each (es : list (string * Value)) (out : list (string * Value))
         {struct es} : M Value :=
         match es with
         | [] => ret (VObject out)
         | (k, v) :: es' =>
             v' <- walk v (path ++ [k]) ;;
             each es' (obj_set out k v')
         end) entries []
  | VString s => walk_string s path
  | _ => ret VUndefined
  end.

Definition truthy (b : option bool) : bool :=
  match b with
  | Some true => true
  | _ => false
  end.

(** The two route guards of [sanitizeObject]; an array, even empty, is
    truthy. *)
Definition route_excluded (route : string) : bool :=
  match allowlistRoutes (cfg this) with
  | Some routes => negb (routes_include routes route)
  | None => false
  end
  || match denylistRoutes (cfg this) with
     | Some routes => routes_include routes route
     | None => false
     end.

Definition sanitizeObject (obj : Value) (route : string) : M Value :=
  if truthy (disable (cfg this)) then ret obj
  else if route_excluded route then ret obj
  else walk obj [].

(** [decodeBody]: objects and arrays are rebuilt, a string that holds a
    colon is decoded, anything else is returned as it is. *)
Fixpoint decodeBody (object : Value) {struct object} : Res Value :=
  match object with
  | VObject entries =>
      (fix each (es : list (string * Value)) (out : list (string * Value))
         {struct es} : Res Value :=
         match es with
         | [] => Ok (VObject out)
         | (k, v) :: es' =>
             v' <-? decodeBody v ;;
             each es' (obj_set out k v')
         end) entries []
  | VArray items =>
      items' <-? (fix each (l : list Value) : Res (list Value) :=
                    match l with
                    | [] => Ok []
                    | item :: l' =>
                        item' <-? decodeBody item ;;
                        rest <-? each l' ;;
                        Ok (item' :: rest)
                    end) items ;;
      Ok (VArray items')
  | VString s =>
      if includes_char ":" s then s' <-? decodeValue s ;; Ok (VString s')
      else Ok object
  | _ => Ok object
  end.

(** [expressMiddleware()]: the returned handler, as the change it makes to
    the request before it calls [next].  [req.url || ''] is the route. *)
Definition expressMiddleware (req : Request) : M Request :=
  let route := match req_url req with
               | Some u => u
               | None => ""
               end in
  let body := req_body req in
  if route_excluded route then ret req
  else body' <- sanitizeObject body route ;;
       ret {| req_url := req_url req; req_body := body' |}.
End Methods.

(* ================================================================== *)
(** * Vocabulary of the statements                                     *)
(* ================================================================== *)

(** The random source after [n] more bytes have been read. *)
Definition advance (r : Rng) (n : nat) : Rng :=
  {| tape := tape r; pos := pos r + n |}.

(** The bytes that the next [randomBytes(16)] returns. *)
Definition next_iv (r : Rng) : Buffer :=
  map (fun i => tape r (pos r + i)) (seq 0 16).

(** The first [n] characters of [s] exist and are all in class [p]. *)
Fixpoint starts_with (p : ascii -> bool) (n : nat) (s : string) : bool :=
  match n, s with
  | 0, _ => true
  | S n', String c s' => p c && starts_with p n' s'
  | S _, "" => false
  end.

(** The text of a token before its first colon. *)
Definition iv_segment (data : string) : string := hd "" (split ":" data).

(** The matches follow one another from [next] on. *)
Fixpoint chained (next : nat) (results : list (nat * nat)) : Prop :=
  match results with
  | [] => True
  | (i, e) :: results' => next <= i /\ i <= e /\ chained e results'
  end.

(** [val] cut along the matches [results], from position [next] on: the
    text before each match, the match, and at the end the text after the
    last match. *)
Fixpoint plain_text (val : string) (results : list (nat * nat)) (next : nat) : string :=
  match results with
  | [] => drop next val
  | (i, e) :: results' =>
      (slice val next i ++ slice val i e ++ plain_text val results' e)%string
  end.

(** The configuration [c] with [maxStringScanLen] set to [cap]. *)
Definition with_maxStringScanLen (c : PiiSanitizerConfig) (cap : option nat)
  : PiiSanitizerConfig :=
  {| signingSecret := signingSecret c;
     allowlistRoutes := allowlistRoutes c;
     denylistRoutes := denylistRoutes c;
     disable := disable c;
     regexToSanitize := regexToSanitize c;
     detectors := detectors c;
     fieldsToSanitize := fieldsToSanitize c;
     fieldsToSkip := fieldsToSkip c;
     maxStringScanLen := cap |}.

Section Vocabulary.
Context `{NodeCrypto} `{RegExpEngine}.
Variable this : Sanitizer.

(** The token that [encodeValue] builds from the 16 random bytes [iv]. *)
Definition token_of (iv : Buffer) (val : string) : string :=
  (Buffer_toString_hex iv ++ ":"
   ++ Buffer_toString_hex (ctr_xor (getKey this) iv 0 (Buffer_from_utf8 val)))%string.

(** [val] cut along [results] as in [plain_text], with each match
    replaced by the token made from it with the next 16 random bytes. *)
Fixpoint masked_text (val : string) (results : list (nat * nat)) (next : nat)
         (r : Rng) : string :=
  match results with
  | [] => drop next val
  | (i, e) :: results' =>
      (slice val next i ++ token_of (next_iv r) (slice val i e)
       ++ masked_text val results' e (advance r 16))%string
  end.

(** The configured pattern [reStr] compiles and has no match in [val]. *)
Definition pattern_misses (val : string) (reStr : string) : bool :=
  match RegExp_compile reStr with
  | Some re => negb (RegExp_test re val)
  | None => false
  end.

(** The regex step leaves [val] to the later steps: [regexToSanitize] is
    absent, or each of its patterns compiles and misses. *)
Definition no_pattern_applies (patterns : option (list string)) (val : string) : bool :=
  match patterns with
  | Some l => forallb (pattern_misses val) l
  | None => true
  end.

(** The entries of an object walked one after the other, each under its
    own key. *)
Fixpoint walk_entries (path : list string) (es : list (string * Value))
  : M (list (string * Value)) :=
  match es with
  | [] => ret []
  | (k, v) :: es' =>
      v' <- walk this v (path ++ [k]) ;;
      rest <- walk_entries path es' ;;
      ret ((k, v') :: rest)
  end.
End Vocabulary.

(* ================================================================== *)
(** * A runtime to run the model on examples                           *)
(* ================================================================== *)

(** Every statement of this file is proved for any implementation of the
    two interfaces.  To evaluate the model on concrete inputs, one
    implementation of each is fixed here.  They stand in for the real
    algorithms and have their shapes only: a digest of 32 bytes, a block
    function, and an engine that knows the pattern of the documentation,
    [\d{10}], and refuses every other source. *)

Definition demo_sha256 (m : Buffer) : Buffer :=
  map (fun i => nth i m x20) (seq 0 32).

Definition demo_block (key block : Buffer) : Buffer :=
  map (fun kb => bxor (fst kb) (snd kb)) (combine (firstn 16 key) block).

#[export] Instance demo_crypto : NodeCrypto :=
  {| sha256 := demo_sha256;
     sha256_length :=
       fun m => eq_trans (length_map (fun i => nth i m x20) (seq 0 32))
                         (length_seq 32 0);
     aes256_encrypt_block := demo_block |}.

(** A run of [n] digits at index [i]. *)
Definition digits_at (n : nat) (s : string) (i : nat) : option nat :=
  if starts_with digit n (drop i s) && (i + n <=? String.length s)
  then Some (i + n) else None.

#[export, refine] Instance demo_engine : RegExpEngine :=
  {| RegExp := nat;
     RegExp_compile := fun src => if String.eqb src "\d{10}" then Some 10 else None;
     matcher := digits_at;
     matcher_bounds := _ |}.
Proof.
  intros n s i e. unfold digits_at.
  destruct (starts_with digit n (drop i s)); [|discriminate].
  destruct (Nat.leb_spec (i + n) (String.length s)); [|discriminate].
  intros [= <-]. lia.
Defined.

Definition demo_rng : Rng :=
  {| tape := fun i => byte_of_N (N.of_nat (7 * i + 1)); pos := 0 |}.

(** Only the secret is configured: every leaf goes to auto-detection. *)
Definition demo_config : PiiSanitizerConfig :=
  {| signingSecret := "thisisseceretkeyforme";
     allowlistRoutes := None;
     denylistRoutes := None;
     disable := None;
     regexToSanitize := None;
     detectors := None;
     fieldsToSanitize := None;
     fieldsToSkip := None;
     maxStringScanLen := None |}.

Definition demo : Sanitizer := {| cfg := demo_config |}.

(** The regex scenario of the specification, with a cap on the scanned
    length, and a second source that does not compile. *)
Definition regex_config : PiiSanitizerConfig :=
  {| signingSecret := "thisisseceretkeyforme";
     allowlistRoutes := None;
     denylistRoutes := None;
     disable := None;
     regexToSanitize := Some ["\d{10}"; "("];
     detectors := None;
     fieldsToSanitize := None;
     fieldsToSkip := None;
     maxStringScanLen := Some 5 |}.

(** The explicit-field scenario of the specification. *)
Definition explicit_config : PiiSanitizerConfig :=
  {| signingSecret := "thisisseceretkeyforme";
     allowlistRoutes := Some [RouteString "/signup"];
     denylistRoutes := None;
     disable := None;
     regexToSanitize := None;
     detectors := None;
     fieldsToSanitize := Some ["password"];
     fieldsToSkip := None;
     maxStringScanLen := None |}.

(** A skip list against everything else: the skipped name is also in
    [fieldsToSanitize], and a pattern is configured. *)
Definition skip_config : PiiSanitizerConfig :=
  {| signingSecret := "thisisseceretkeyforme";
     allowlistRoutes := None;
     denylistRoutes := None;
     disable := None;
     regexToSanitize := Some ["\d{10}"];
     detectors := None;
     fieldsToSanitize := Some ["card"; "email"];
     fieldsToSkip := Some ["card"];
     maxStringScanLen := None |}.

(** Two strings outside ASCII: ["\uD800"], a single unpaired surrogate
    (ED A0 80), and ["\u0130"], a capital I with a dot above (C4 B0),
    whose code unit has the low byte of the digit 0. *)
Definition U_D800 : string := String "237" (String "160" (String "128" "")).
Definition U_0130 : string := String "196" (String "176" "").

Definition sample_body : Value :=
  VObject [("name", VString "JohnDoe");
           ("tags", VArray [VString "a"; VString "b"]);
           ("age", VNumber 30%float);
           ("active", VBoolean true);
           ("spouse", VNull)].

(** The end-to-end scenario of the specification. *)
Definition signup_config : PiiSanitizerConfig :=
  {| signingSecret := "thisisseceretkeyforme";
     allowlistRoutes := None;
     denylistRoutes := None;
     disable := None;
     regexToSanitize := None;
     detectors := None;
     fieldsToSanitize := Some ["password"; "email"];
     fieldsToSkip := None;
     maxStringScanLen := None |}.

Definition signup_body : Value :=
  VObject [("username", VString "JohnDoe");
           ("password", VString "mysecretpass");
           ("email", VString "john@example.com");
           ("phone", VString "9876543210")].

(* ================================================================== *)
(** * Vocabulary of the further properties                             *)
(* ================================================================== *)

(** Every character of [s] is in class [p]. *)
Fixpoint all_chars (p : ascii -> bool) (s : string) : bool :=
  match s with
  | "" => true
  | String c s' => p c && all_chars p s'
  end.

(** A digit of lowercase hexadecimal text. *)
Definition lower_hex (c : ascii) : bool := in_range "0" "9" c || in_range "a" "f" c.

Definition is_RouteRegExp (r : Route) : bool :=
  match r with
  | RouteRegExp _ => true
  | RouteString _ => false
  end.

(** No name occurs twice. *)
Fixpoint distinct (ks : list string) : bool :=
  match ks with
  | [] => true
  | k :: ks' => negb (includes ks' k) && distinct ks'
  end.

(** The keys of the entries of a parsed object: distinct, and none is
    [__proto__]. *)
Definition own_keys (es : list (string * Value)) : bool :=
  distinct (map fst es) && negb (includes (map fst es) "__proto__").

(** A body without tokens: no string in it holds a colon (and its objects
    have [own_keys]). *)
Fixpoint token_free (v : Value) : bool :=
  match v with
  | VString s => negb (includes_char ":" s)
  | VArray items => forallb token_free items
  | VObject es =>
      own_keys es && forallb (fun kv => match kv with (_, v') => token_free v' end) es
  | _ => true
  end.

(** A tree of objects (with [own_keys]) whose leaves are all strings in
    [leaf]. *)
Fixpoint object_tree (leaf : string -> bool) (v : Value) : bool :=
  match v with
  | VString s => leaf s
  | VObject es =>
      own_keys es
      && forallb (fun kv => match kv with (_, v') => object_tree leaf v' end) es
  | _ => false
  end.

(** The string leaves of a body, in the order of traversal. *)
Fixpoint strings_of (v : Value) : list string :=
  match v with
  | VString s => [s]
  | VArray items => flat_map strings_of items
  | VObject es => flat_map (fun kv => match kv with (_, v') => strings_of v' end) es
  | _ => []
  end.

Definition is_object (v : Value) : bool :=
  match v with
  | VObject _ => true
  | _ => false
  end.

(** The configuration [c] with the pattern entries taken out of its two
    route lists. *)
Definition without_route_patterns (c : PiiSanitizerConfig) : PiiSanitizerConfig :=
  let strings := filter (fun r => negb (is_RouteRegExp r)) in
  {| signingSecret := signingSecret c;
     allowlistRoutes := option_map strings (allowlistRoutes c);
     denylistRoutes := option_map strings (denylistRoutes c);
     disable := disable c;
     regexToSanitize := regexToSanitize c;
     detectors := detectors c;
     fieldsToSanitize := fieldsToSanitize c;
     fieldsToSkip := fieldsToSkip c;
     maxStringScanLen := maxStringScanLen c |}.

(** The README's Fastify example: a pattern as the only allowed route. *)
Definition readme_config : PiiSanitizerConfig :=
  {| signingSecret := "thisissecretkeyforme";
     allowlistRoutes := Some [RouteRegExp "\/signup"];
     denylistRoutes := None;
     disable := None;
     regexToSanitize := None;
     detectors := None;
     fieldsToSanitize := None;
     fieldsToSkip := None;
     maxStringScanLen := None |}.

(** An empty list of fields to sanitize. *)
Definition empty_fields_config : PiiSanitizerConfig :=
  {| signingSecret := "thisisseceretkeyforme";
     allowlistRoutes := None;
     denylistRoutes := None;
     disable := None;
     regexToSanitize := None;
     detectors := None;
     fieldsToSanitize := Some [];
     fieldsToSkip := None;
     maxStringScanLen := None |}.

(** What one round of the loop of [luhnAlgorithm] adds to the sum: the
    digit read, doubled and reduced when [alt] is set. *)
Definition luhn_term (alt : bool) (c : option ascii) : number :=
  let n := parseInt c in
  if alt
  then match n with
       | Some d => if 9 <? d * 2 then Some (d * 2 - 9) else Some (d * 2)
       | None => None
       end
  else n.

(** The configuration [c] with [detectors] set to [d]. *)
Definition with_detectors (c : PiiSanitizerConfig) (d : option PiiType)
  : PiiSanitizerConfig :=
  {| signingSecret := signingSecret c;
     allowlistRoutes := allowlistRoutes c;
     denylistRoutes := denylistRoutes c;
     disable := disable c;
     regexToSanitize := regexToSanitize c;
     detectors := d;
     fieldsToSanitize := fieldsToSanitize c;
     fieldsToSkip := fieldsToSkip c;
     maxStringScanLen := maxStringScanLen c |}.

(** Sanitizing switched off, with the secret of [demo_config]. *)
Definition disabled_config : PiiSanitizerConfig :=
  {| signingSecret := "thisisseceretkeyforme";
     allowlistRoutes := Some [];
     denylistRoutes := None;
     disable := Some true;
     regexToSanitize := None;
     detectors := None;
     fieldsToSanitize := None;
     fieldsToSkip := None;
     maxStringScanLen := None |}.

(** A pattern that does not compile, before one that does. *)
Definition bad_pattern_config : PiiSanitizerConfig :=
  {| signingSecret := "thisisseceretkeyforme";
     allowlistRoutes := None;
     denylistRoutes := None;
     disable := None;
     regexToSanitize := Some ["("; "\d{10}"];
     detectors := None;
     fieldsToSanitize := None;
     fieldsToSkip := Some ["note"];
     maxStringScanLen := None |}.

Section FurtherVocabulary.
Context `{NodeCrypto} `{RegExpEngine}.
Variable this : Sanitizer.

(** Every configured pattern compiles. *)
Definition patterns_compile (patterns : option (list string)) : bool :=
  match patterns with
  | Some l => forallb (fun reStr => match RegExp_compile reStr with
                                    | Some _ => true
                                    | None => false
                                    end) l
  | None => true
  end.

(** The loop of [walk] over the entries of an object, from the entries
    [es] still to come and the object [out] built so far. *)
Fixpoint walk_each (path : list string) (es out : list (string * Value)) : M Value :=
  match es with
  | [] => ret (VObject out)
  | (k, v) :: es' =>
      v' <- walk this v (path ++ [k]) ;;
      walk_each path es' (obj_set out k v')
  end.

(** The same loop in [decodeBody], and its [map] over an array. *)
Fixpoint decode_each (es out : list (string * Value)) : Res Value :=
  match es with
  | [] => Ok (VObject out)
  | (k, v) :: es' =>
      v' <-? decodeBody this v ;;
      decode_each es' (obj_set out k v')
  end.

(** The entries of an object decoded one after the other. *)
Fixpoint decode_entries (es : list (string * Value)) : Res (list (string * Value)) :=
  match es with
  | [] => Ok []
  | (k, v) :: es' =>
      v' <-? decodeBody this v ;;
      rest <-? decode_entries es' ;;
      Ok ((k, v') :: rest)
  end.

(** A body that [walk] rebuilds in full and [decodeBody] restores: a tree
    of objects whose strings hold no colon and no unpaired surrogate, and
    are matched by no configured pattern. *)
Definition maskable (v : Value) : bool :=
  object_tree (fun s => negb (includes_char ":" s)
                        && isWellFormed s
                        && no_pattern_applies (regexToSanitize (cfg this)) s) v.

Fixpoint decode_items (items : list Value) : Res (list Value) :=
  match items with
  | [] => Ok []
  | item :: items' =>
      item' <-? decodeBody this item ;;
      rest <-? decode_items items' ;;
      Ok (item' :: rest)
  end.
End FurtherVocabulary.

(* ================================================================== *)
(** * Facts about strings and buffers                                  *)
(* ================================================================== *)

Lemma take_drop n s : (take n s ++ drop n s)%string = s.
Proof.
  revert s; induction n as [|n IH]; intros [|c s]; simpl; try reflexivity.
  now rewrite IH.
Qed.

Lemma length_append (a b : string) :
  String.length (a ++ b) = String.length a + String.length b.
Proof. induction a as [|c a IH]; simpl; [reflexivity | now rewrite IH]. Qed.

Lemma length_drop n s : String.length (drop n s) = String.length s - n.
Proof.
  revert s; induction n as [|n IH]; intros [|c s]; simpl; try reflexivity.
  apply IH.
Qed.

Lemma drop_drop n m s : drop n (drop m s) = drop (m + n) s.
Proof.
  revert s; induction m as [|m IH]; intros s; simpl; [reflexivity|].
  destruct s as [|c s]; [now destruct n | apply IH].
Qed.

Lemma append_assoc (a b c : string) : ((a ++ b) ++ c = a ++ (b ++ c))%string.
Proof. induction a as [|x a IH]; simpl; [reflexivity | now rewrite IH]. Qed.

Lemma includes_char_append c a b :
  includes_char c (a ++ b) = includes_char c a || includes_char c b.
Proof.
  induction a as [|x a IH]; simpl; [reflexivity|].
  now rewrite IH, orb_assoc.
Qed.

(** A string without the separator is a single segment. *)
Lemma split_no_sep sep s : includes_char sep s = false -> split sep s = [s].
Proof.
  induction s as [|a s IH]; simpl; [reflexivity|].
  intros Hs. apply orb_false_iff in Hs as [Ha Hs].
  rewrite Ha, (IH Hs). reflexivity.
Qed.

(** The first segment ends at the first separator. *)
Lemma split_first_sep sep a b :
  includes_char sep a = false ->
  split sep (a ++ String sep b) = a :: split sep b.
Proof.
  induction a as [|x a IH]; simpl.
  - intros _. now rewrite Ascii.eqb_refl.
  - intros Hs. apply orb_false_iff in Hs as [Hx Hs].
    rewrite Hx, (IH Hs). reflexivity.
Qed.

Lemma split_not_nil sep s : split sep s <> [].
Proof.
  destruct s as [|a s]; simpl; [discriminate|].
  destruct (Ascii.eqb a sep); [discriminate|].
  destruct (split sep s); discriminate.
Qed.

(** A string with a separator has at least two segments. *)
Lemma split_two_segments sep s :
  includes_char sep s = true ->
  exists seg1 seg2 segs, split sep s = seg1 :: seg2 :: segs.
Proof.
  induction s as [|a s IH]; simpl; [discriminate|].
  destruct (Ascii.eqb a sep) eqn:Ha; simpl.
  - intros _. destruct (split sep s) as [|seg segs] eqn:Hs.
    + now apply split_not_nil in Hs.
    + now exists "", seg, segs.
  - intros Hs. destruct (IH Hs) as (seg1 & seg2 & segs & ->).
    now exists (String a seg1), seg2, segs.
Qed.

(** ** Text *)

Lemma string_length_ind (P : string -> Prop) :
  (forall s, (forall t, String.length t < String.length s -> P t) -> P s) ->
  forall s, P s.
Proof.
  intros Hstep s. remember (String.length s) as n eqn:Hn.
  revert s Hn. induction n as [n IH] using lt_wf_ind. intros s ->.
  apply Hstep. intros t Ht. exact (IH _ Ht t eq_refl).
Qed.

(** Comparisons of bytes, as arithmetic. *)
Ltac byte_values :=
  repeat match goal with
         | |- context [nat_of_ascii (Ascii ?a ?b ?c ?d ?e ?f ?g ?h)] =>
             let v := eval vm_compute in (nat_of_ascii (Ascii a b c d e f g h)) in
             change (nat_of_ascii (Ascii a b c d e f g h)) with v
         | H : context [nat_of_ascii (Ascii ?a ?b ?c ?d ?e ?f ?g ?h)] |- _ =>
             let v := eval vm_compute in (nat_of_ascii (Ascii a b c d e f g h)) in
             change (nat_of_ascii (Ascii a b c d e f g h)) with v in H
         end.

Lemma in_range_spec lo hi c :
  in_range lo hi c = true <-> nat_of_ascii lo <= nat_of_ascii c <= nat_of_ascii hi.
Proof.
  unfold in_range. rewrite andb_true_iff, !Nat.leb_le. reflexivity.
Qed.

Lemma in_range_false lo hi c :
  in_range lo hi c = false <-> ~ nat_of_ascii lo <= nat_of_ascii c <= nat_of_ascii hi.
Proof. rewrite <- in_range_spec. now destruct (in_range lo hi c). Qed.

Ltac ranges :=
  repeat match goal with
         | H : in_range _ _ _ = true |- _ => apply in_range_spec in H
         | H : in_range _ _ _ = false |- _ => apply in_range_false in H
         | |- in_range _ _ _ = true => apply in_range_spec
         | |- in_range _ _ _ = false => apply in_range_false
         end;
  byte_values; lia.

(** A sequence whose first two bytes are those of a well-formed one is
    not the form of a surrogate. *)
Lemma utf8_lead_not_surrogate c0 c1 c2 n lo hi :
  utf8_lead c0 = Some (n, lo, hi) -> in_range lo hi c1 = true ->
  surrogate_form c0 c1 c2 = false.
Proof.
  unfold utf8_lead, surrogate_form. intros Hlead Hc1.
  destruct (in_range "237" "237" c0) eqn:H237; [|reflexivity].
  destruct (in_range "160" "191" c1) eqn:Hhigh; [|reflexivity]. exfalso.
  repeat match type of Hlead with
         | (if ?b then _ else _) = _ => destruct b eqn:?
         end; try discriminate; injection Hlead as <- <- <-; ranges.
Qed.

Lemma utf8_lead_range c n lo hi :
  utf8_lead c = Some (n, lo, hi) -> in_range "194" "244" c = true.
Proof.
  unfold utf8_lead. intros Hlead.
  repeat match type of Hlead with
         | (if ?b then _ else _) = _ => destruct b eqn:?
         end; try discriminate; ranges.
Qed.

Lemma toWellFormed_step c0 s0 :
  (forall c1 c2 s2, s0 = String c1 (String c2 s2) -> surrogate_form c0 c1 c2 = false) ->
  toWellFormed (String c0 s0) = String c0 (toWellFormed s0).
Proof.
  intros Hform. cbn [toWellFormed]. destruct s0 as [|c1 [|c2 s2]]; try reflexivity.
  now rewrite (Hform c1 c2 s2 eq_refl).
Qed.

Lemma toWellFormed_other c0 s0 :
  in_range "237" "237" c0 = false ->
  toWellFormed (String c0 s0) = String c0 (toWellFormed s0).
Proof.
  intros Hc0. apply toWellFormed_step. intros c1 c2 s2 _.
  unfold surrogate_form. now rewrite Hc0.
Qed.

Lemma toWellFormed_ascii c0 s0 :
  in_range "000" "127" c0 = true ->
  toWellFormed (String c0 s0) = String c0 (toWellFormed s0).
Proof. intros Hc0. apply toWellFormed_other. ranges. Qed.

Lemma toWellFormed_continuation c0 s0 :
  in_range "128" "191" c0 = true ->
  toWellFormed (String c0 s0) = String c0 (toWellFormed s0).
Proof. intros Hc0. apply toWellFormed_other. ranges. Qed.

Lemma toWellFormed_lead c0 c1 s1 n lo hi :
  utf8_lead c0 = Some (n, lo, hi) -> in_range lo hi c1 = true ->
  toWellFormed (String c0 (String c1 s1)) = String c0 (toWellFormed (String c1 s1)).
Proof.
  intros Hlead Hc1. apply toWellFormed_step. intros c1' c2 s2 [= <- _].
  exact (utf8_lead_not_surrogate c0 c1 c2 n lo hi Hlead Hc1).
Qed.

Lemma utf8_lead_continuation c0 c1 n lo hi :
  utf8_lead c0 = Some (n, lo, hi) -> in_range lo hi c1 = true ->
  in_range "128" "191" c1 = true.
Proof.
  unfold utf8_lead. intros Hlead Hc1.
  repeat match type of Hlead with
         | (if ?b then _ else _) = _ => destruct b eqn:?
         end; try discriminate; injection Hlead as <- <- <-; ranges.
Qed.

(** [toWellFormed] keeps the length of the UTF-8 form: a surrogate and
    U+FFFD both take three bytes. *)
Lemma length_toWellFormed s : String.length (toWellFormed s) = String.length s.
Proof.
  induction s as [s IH] using string_length_ind.
  destruct s as [|c0 s0]; [reflexivity|]. cbn [toWellFormed].
  destruct s0 as [|c1 [|c2 s2]].
  - reflexivity.
  - cbn [String.length]. now rewrite (IH (String c1 "")) by (cbn; lia).
  - destruct (surrogate_form c0 c1 c2).
    + cbn [U_FFFD append String.length]. rewrite (IH s2) by (cbn; lia). reflexivity.
    + cbn [String.length]. rewrite (IH (String c1 (String c2 s2))) by (cbn; lia).
      reflexivity.
Qed.

(** Well-formed text is its own well-formed form. *)
Lemma toWellFormed_isWellFormed s : isWellFormed s = true -> toWellFormed s = s.
Proof.
  induction s as [s IH] using string_length_ind.
  destruct s as [|c0 s0]; [reflexivity|]. cbn [isWellFormed].
  destruct (in_range "000" "127" c0) eqn:Hascii.
  - intros Hs0. rewrite (toWellFormed_ascii _ _ Hascii), (IH s0); cbn; auto.
  - destruct (utf8_lead c0) as [[[n lo] hi]|] eqn:Hlead; [|discriminate].
    destruct n as [|[|[|[|n]]]]; try discriminate.
    + destruct s0 as [|c1 s1]; [discriminate|]. intros Hs.
      apply andb_true_iff in Hs as [Hc1 Hs1].
      rewrite (toWellFormed_lead _ _ _ _ _ _ Hlead Hc1).
      rewrite (toWellFormed_continuation c1)
        by exact (utf8_lead_continuation _ _ _ _ _ Hlead Hc1).
      rewrite (IH s1); cbn; auto.
    + destruct s0 as [|c1 [|c2 s2]]; try discriminate. intros Hs.
      apply andb_true_iff in Hs as [Hs Hs2]. apply andb_true_iff in Hs as [Hc1 Hc2].
      rewrite (toWellFormed_lead _ _ _ _ _ _ Hlead Hc1).
      rewrite (toWellFormed_continuation c1)
        by exact (utf8_lead_continuation _ _ _ _ _ Hlead Hc1).
      rewrite (toWellFormed_continuation c2 _ Hc2).
      rewrite (IH s2); cbn; auto.
    + destruct s0 as [|c1 [|c2 [|c3 s3]]]; try discriminate. intros Hs.
      apply andb_true_iff in Hs as [Hs Hs3]. apply andb_true_iff in Hs as [Hs Hc3].
      apply andb_true_iff in Hs as [Hc1 Hc2].
      rewrite (toWellFormed_lead _ _ _ _ _ _ Hlead Hc1).
      rewrite (toWellFormed_continuation c1)
        by exact (utf8_lead_continuation _ _ _ _ _ Hlead Hc1).
      rewrite (toWellFormed_continuation c2 _ Hc2), (toWellFormed_continuation c3 _ Hc3).
      rewrite (IH s3); cbn; auto.
Qed.

(** Well-formed UTF-8 is decoded to itself. *)
Lemma utf8_decode_isWellFormed s : isWellFormed s = true -> utf8_decode s = s.
Proof.
  induction s as [s IH] using string_length_ind.
  destruct s as [|c0 s0]; [reflexivity|]. cbn [isWellFormed utf8_decode].
  destruct (in_range "000" "127" c0) eqn:Hascii.
  - intros Hs0. rewrite (IH s0); cbn; auto.
  - destruct (utf8_lead c0) as [[[n lo] hi]|] eqn:Hlead; [|discriminate].
    destruct n as [|[|[|[|n]]]]; try discriminate.
    + destruct s0 as [|c1 s1]; [discriminate|]. intros Hs.
      apply andb_true_iff in Hs as [Hc1 Hs1]. rewrite Hc1. cbn.
      rewrite (IH s1); cbn; auto.
    + destruct s0 as [|c1 [|c2 s2]]; try discriminate. intros Hs.
      apply andb_true_iff in Hs as [Hs Hs2]. apply andb_true_iff in Hs as [Hc1 Hc2].
      rewrite Hc1, Hc2. cbn. rewrite (IH s2); cbn; auto.
    + destruct s0 as [|c1 [|c2 [|c3 s3]]]; try discriminate. intros Hs.
      apply andb_true_iff in Hs as [Hs Hs3]. apply andb_true_iff in Hs as [Hs Hc3].
      apply andb_true_iff in Hs as [Hc1 Hc2].
      rewrite Hc1, Hc2, Hc3. cbn. rewrite (IH s3); cbn; auto.
Qed.

(** ** Hexadecimal *)

Lemma hex_digit_pair (x : byte) :
  unhex (hex_digit (Byte.to_nat x / 16)) = Some (Byte.to_nat x / 16)
  /\ unhex (hex_digit (Byte.to_nat x mod 16)) = Some (Byte.to_nat x mod 16)
  /\ Ascii.eqb (hex_digit (Byte.to_nat x / 16)) ":" = false
  /\ Ascii.eqb (hex_digit (Byte.to_nat x mod 16)) ":" = false.
Proof. destruct x; repeat split; reflexivity. Qed.

Lemma byte_of_nibbles_to_nat (x : byte) :
  byte_of_nibbles (Byte.to_nat x / 16) (Byte.to_nat x mod 16) = x.
Proof.
  unfold byte_of_nibbles.
  rewrite <- (Nat.div_mod_eq (Byte.to_nat x) 16), Byte.of_to_nat. reflexivity.
Qed.

Lemma low_byte_N_of_ascii c : low_byte (N_of_ascii c) = c.
Proof.
  unfold low_byte. rewrite N.mod_small by apply N_ascii_bounded.
  apply ascii_N_embedding.
Qed.

Lemma utf16_ascii c s :
  in_range "000" "127" c = true -> utf16 (String c s) = N_of_ascii c :: utf16 s.
Proof. intros Hc. cbn [utf16]. now rewrite Hc. Qed.

Lemma hex_digit_ascii n : in_range "000" "127" (hex_digit n) = true.
Proof. do 16 (destruct n as [|n]; [reflexivity|]). reflexivity. Qed.

Lemma unhex_ascii c hi : unhex c = Some hi -> in_range "000" "127" c = true.
Proof.
  unfold unhex.
  repeat match goal with
         | |- (if ?b then _ else _) = _ -> _ => destruct b eqn:?
         end; try discriminate; intros _; ranges.
Qed.

(** On ASCII text the decoder reads the characters two by two. *)
Lemma Buffer_from_hex_pair a b s :
  in_range "000" "127" a = true -> in_range "000" "127" b = true ->
  Buffer_from_hex (String a (String b s))
  = match unhex a, unhex b with
    | Some hi, Some lo => byte_of_nibbles hi lo :: Buffer_from_hex s
    | _, _ => []
    end.
Proof.
  intros Ha Hb. unfold Buffer_from_hex.
  rewrite (utf16_ascii a _ Ha), (utf16_ascii b _ Hb). cbn [hex_pairs].
  now rewrite !low_byte_N_of_ascii.
Qed.

(** Text that begins with an ASCII character other than a hexadecimal
    digit decodes to no byte at all. *)
Lemma Buffer_from_hex_bad_start c s :
  in_range "000" "127" c = true -> unhex c = None ->
  Buffer_from_hex (String c s) = [].
Proof.
  intros Hascii Hc. unfold Buffer_from_hex. rewrite (utf16_ascii c _ Hascii).
  destruct (utf16 s) as [|u units]; [reflexivity|]. cbn [hex_pairs].
  now rewrite low_byte_N_of_ascii, Hc.
Qed.

Lemma Buffer_from_hex_append b s :
  Buffer_from_hex (Buffer_toString_hex b ++ s) = b ++ Buffer_from_hex s.
Proof.
  induction b as [|x b IH]; [reflexivity|].
  cbn [Buffer_toString_hex append].
  rewrite Buffer_from_hex_pair by apply hex_digit_ascii.
  destruct (hex_digit_pair x) as (-> & -> & _).
  now rewrite byte_of_nibbles_to_nat, IH.
Qed.

(** Hexadecimal text decodes to the buffer it was written from. *)
Lemma Buffer_from_hex_toString_hex (b : Buffer) :
  Buffer_from_hex (Buffer_toString_hex b) = b.
Proof.
  rewrite <- (app_nil_r b) at 2. change [] with (Buffer_from_hex "").
  rewrite <- Buffer_from_hex_append. f_equal.
  induction (Buffer_toString_hex b) as [|c s IH]; [reflexivity | cbn; now rewrite <- IH].
Qed.

(** The three conversions on text outside ASCII: an unpaired surrogate
    is written as U+FFFD; bytes that are no UTF-8 are read as U+FFFD, one
    for the stray byte FF and one for the sequence that C3 begins and the
    end of the buffer cuts; U+0130 is read as the digit 0 and U+0141 as
    the digit A, and the character U+1F600 is two code units. *)
Example Buffer_from_utf8_unpaired_surrogate :
  Buffer_from_utf8 ("a" ++ U_D800 ++ "b") = [x61; xef; xbf; xbd; x62].
Proof. reflexivity. Qed.

Example Buffer_toString_utf8_ill_formed :
  Buffer_toString_utf8 [xff; x61; xc3] = (U_FFFD ++ "a" ++ U_FFFD)%string.
Proof. reflexivity. Qed.

Example Buffer_from_hex_low_bytes :
  Buffer_from_hex (U_0130 ++ String "197" (String "129" "") ++ "ff") = [x0a; xff].
Proof. reflexivity. Qed.

Example utf16_surrogate_pair :
  utf16 (String "240" (String "159" (String "152" (String "128" ""))))
  = [55357%N; 56832%N].
Proof. reflexivity. Qed.

Lemma Buffer_toString_hex_no_colon (b : Buffer) :
  includes_char ":" (Buffer_toString_hex b) = false.
Proof.
  induction b as [|x b IH]; [reflexivity|].
  cbn [Buffer_toString_hex includes_char].
  destruct (hex_digit_pair x) as (_ & _ & -> & ->). exact IH.
Qed.

Lemma length_Buffer_toString_hex (b : Buffer) :
  String.length (Buffer_toString_hex b) = 2 * List.length b.
Proof. induction b as [|x b IH]; simpl; [reflexivity | rewrite IH; lia]. Qed.

Lemma length_list_byte_of_string s :
  List.length (list_byte_of_string s) = String.length s.
Proof.
  unfold list_byte_of_string. rewrite length_map.
  induction s as [|c s IH]; simpl; [reflexivity | now rewrite IH].
Qed.

Lemma length_Buffer_from_utf8 s : List.length (Buffer_from_utf8 s) = String.length s.
Proof.
  unfold Buffer_from_utf8. now rewrite length_list_byte_of_string, length_toWellFormed.
Qed.

(** Text without an unpaired surrogate survives the passage through its
    UTF-8 bytes. *)
Lemma Buffer_toString_from_utf8 s :
  isWellFormed s = true -> Buffer_toString_utf8 (Buffer_from_utf8 s) = s.
Proof.
  intros Hs. unfold Buffer_toString_utf8, Buffer_from_utf8.
  rewrite string_of_list_byte_of_string, (toWellFormed_isWellFormed s Hs).
  now apply utf8_decode_isWellFormed.
Qed.

Lemma Buffer_from_utf8_inj s s' :
  isWellFormed s = true -> isWellFormed s' = true ->
  Buffer_from_utf8 s = Buffer_from_utf8 s' -> s = s'.
Proof.
  intros Hs Hs' Heq. rewrite <- (Buffer_toString_from_utf8 s Hs),
    <- (Buffer_toString_from_utf8 s' Hs'). now rewrite Heq.
Qed.

Lemma bxor_involutive (x k : byte) : bxor (bxor x k) k = x.
Proof.
  unfold bxor.
  destruct (Byte.to_bits x) as (a0 & a1 & a2 & a3 & a4 & a5 & a6 & a7) eqn:Hx.
  destruct (Byte.to_bits k) as (b0 & b1 & b2 & b3 & b4 & b5 & b6 & b7) eqn:Hk.
  rewrite Byte.to_bits_of_bits.
  rewrite <- (Byte.of_bits_to_bits x), Hx.
  repeat rewrite xorb_assoc, xorb_nilpotent, xorb_false_r. reflexivity.
Qed.

(* ================================================================== *)
(** * The codec                                                        *)
(* ================================================================== *)

Section CodecFacts.
Context `{NodeCrypto} `{RegExpEngine}.

Lemma length_getKey this : List.length (getKey this) = 32.
Proof. apply sha256_length. Qed.

(** Counter mode is its own inverse, from any stream offset. *)
Lemma ctr_xor_involutive key iv j data :
  ctr_xor key iv j (ctr_xor key iv j data) = data.
Proof.
  revert j; induction data as [|x data IH]; intros j; simpl; [reflexivity|].
  now rewrite bxor_involutive, IH.
Qed.

Lemma length_ctr_xor key iv j data :
  List.length (ctr_xor key iv j data) = List.length data.
Proof.
  revert j; induction data as [|x data IH]; intros j; simpl; [reflexivity|].
  now rewrite IH.
Qed.

Lemma length_next_iv r : List.length (next_iv r) = 16.
Proof. unfold next_iv. now rewrite length_map, length_seq. Qed.

(** [encodeValue] never throws: it reads 16 bytes and returns the token
    built from them. *)
Lemma encodeValue_run this val r :
  encodeValue this val r = Ok (token_of this (next_iv r) val, advance r 16).
Proof.
  unfold encodeValue, bind, randomBytes, lift, createCipheriv, ret.
  fold (next_iv r). rewrite length_next_iv, length_getKey. reflexivity.
Qed.

Lemma maskPattern_run this piiType val r :
  maskPattern this piiType val r = Ok (token_of this (next_iv r) val, advance r 16).
Proof. destruct piiType; apply encodeValue_run. Qed.

(** Decoding a token built from a 16-byte vector gives the text read
    from the UTF-8 bytes of the value. *)
Lemma decodeValue_token_of_bytes this iv val :
  List.length iv = 16 ->
  decodeValue this (token_of this iv val)
  = Ok (Buffer_toString_utf8 (Buffer_from_utf8 val)).
Proof.
  intros Hiv. unfold decodeValue, token_of. cbn [append].
  rewrite split_first_sep by apply Buffer_toString_hex_no_colon.
  rewrite split_no_sep by apply Buffer_toString_hex_no_colon.
  rewrite !Buffer_from_hex_toString_hex.
  unfold createDecipheriv, createCipheriv.
  rewrite Hiv, length_getKey. cbn.
  now rewrite ctr_xor_involutive.
Qed.

(** For a value without an unpaired surrogate, that text is the value. *)
Lemma decodeValue_token_of this iv val :
  List.length iv = 16 -> isWellFormed val = true ->
  decodeValue this (token_of this iv val) = Ok val.
Proof.
  intros Hiv Hval. rewrite (decodeValue_token_of_bytes this iv val Hiv).
  now rewrite Buffer_toString_from_utf8.
Qed.

(** A token is longer than the text it hides. *)
Lemma length_token_of this iv val :
  List.length iv = 16 ->
  String.length (token_of this iv val) = 33 + 2 * String.length val.
Proof.
  intros Hiv. unfold token_of.
  rewrite !length_append, !length_Buffer_toString_hex, length_ctr_xor, Hiv.
  rewrite length_Buffer_from_utf8. simpl. lia.
Qed.

Lemma token_of_neq this iv val : List.length iv = 16 -> token_of this iv val <> val.
Proof.
  intros Hiv Heq. apply (f_equal String.length) in Heq.
  rewrite length_token_of in Heq by assumption. lia.
Qed.
End CodecFacts.

(* ================================================================== *)
(** * The classifier                                                   *)
(* ================================================================== *)

Lemma match_repeat_exact p n s :
  match_repeat p n (Some n) s (fun _ => true) = starts_with p n s.
Proof.
  revert s; induction n as [|n IH]; intros s.
  - destruct s; reflexivity.
  - destruct s as [|c s]; [reflexivity|].
    cbn [match_repeat starts_with orb option_map Nat.pred]. now rewrite IH.
Qed.

Lemma starts_with_le p n m s :
  n <= m -> starts_with p m s = true -> starts_with p n s = true.
Proof.
  revert m s; induction n as [|n IH]; intros m s Hle Hm; [now destruct s|].
  destruct m as [|m]; [lia|].
  destruct s as [|c s]; [discriminate|].
  cbn in *. apply andb_true_iff in Hm as [Hc Hm].
  rewrite Hc. apply (IH m); [lia | assumption].
Qed.

Lemma starts_with_get p n s :
  (forall i, i < n -> exists c, String.get i s = Some c /\ p c = true) ->
  starts_with p n s = true.
Proof.
  revert s; induction n as [|n IH]; intros s Hall; [now destruct s|].
  destruct s as [|c s].
  - destruct (Hall 0) as (c & Hc & _); [lia | discriminate].
  - cbn. destruct (Hall 0) as (c0 & Hc0 & Hp); [lia|].
    cbn in Hc0. injection Hc0 as <-. rewrite Hp. cbn.
    apply IH. intros i Hi. destruct (Hall (S i)) as (ci & Hci & Hpi); [lia|].
    now exists ci.
Qed.

Lemma test_phone_value v : test re_phone_value v = starts_with digit 10 v.
Proof. unfold test, match_at; cbn -[match_repeat]. apply match_repeat_exact. Qed.

Lemma test_aadhar_value v : test re_aadhar_value v = starts_with digit 12 v.
Proof. unfold test, match_at; cbn -[match_repeat]. apply match_repeat_exact. Qed.

(** The specification's ordering example, and a twelve-digit number. *)
Example classify_pan_by_value :
  detectPatternToSanitize (Some "id") "AAAAA1234A" = Ok pan_card.
Proof. reflexivity. Qed.

Example classify_twelve_digits :
  detectPatternToSanitize (Some "uid") "123456789012" = Ok phone.
Proof. reflexivity. Qed.

(** A value that begins with twelve digits begins with ten digits. *)
Lemma aadhar_value_is_phone_value v :
  test re_aadhar_value v = true -> test re_phone_value v = true.
Proof.
  rewrite test_phone_value, test_aadhar_value.
  apply starts_with_le. lia.
Qed.

(** The Luhn sum is a number only if every character read was a digit. *)
Lemma luhn_loop_digits num i1 sum alt r :
  luhn_loop num i1 sum alt = Some r ->
  forall i, i < i1 -> exists c, String.get i num = Some c /\ digit c = true.
Proof.
  revert sum alt; induction i1 as [|j IH]; intros sum alt Hr i Hi; [lia|].
  cbn [luhn_loop] in Hr.
  destruct (Nat.eq_dec i j) as [->|Hne].
  - destruct (String.get j num) as [c|] eqn:Hc.
    + exists c; split; [reflexivity|].
      destruct (digit c) eqn:Hd; [reflexivity|].
      assert (Hnan : forall a, luhn_loop num j None a = None)
        by (clear; induction j as [|j IHj]; intros a; [reflexivity | apply IHj]).
      unfold parseInt in Hr. rewrite Hd in Hr.
      replace (number_add sum _) with (@None nat) in Hr
        by (destruct alt, sum; reflexivity).
      now rewrite Hnan in Hr.
    + assert (Hnan : forall a, luhn_loop num j None a = None)
        by (clear; induction j as [|j IHj]; intros a; [reflexivity | apply IHj]).
      cbn in Hr.
      replace (number_add sum _) with (@None nat) in Hr
        by (destruct alt, sum; reflexivity).
      now rewrite Hnan in Hr.
  - eapply IH; [exact Hr | lia].
Qed.

Lemma luhnAlgorithm_digits num :
  luhnAlgorithm num = true ->
  forall i, i < String.length num -> exists c, String.get i num = Some c /\ digit c = true.
Proof.
  unfold luhnAlgorithm.
  destruct (luhn_loop num (String.length num) (Some 0) false) as [r|] eqn:Hr;
    [|discriminate].
  intros _. exact (luhn_loop_digits _ _ _ _ _ Hr).
Qed.

(** A value long enough for the Luhn disjunct that passes the checksum
    begins with ten digits: the phone rule has already taken it. *)
Lemma luhn_value_is_phone_value v :
  13 < String.length v -> luhnAlgorithm v = true -> test re_phone_value v = true.
Proof.
  intros Hlen Hluhn. rewrite test_phone_value.
  apply starts_with_get. intros i Hi.
  apply (luhnAlgorithm_digits v Hluhn). lia.
Qed.

(** [credit_card] is returned only for the name of the field: the Luhn
    disjunct of the last rule is never the one that decides. *)
Lemma credit_card_only_by_key key value :
  detectPatternToSanitize (Some key) value = Ok credit_card ->
  test re_card_key (toLowerCase key) = true.
Proof.
  unfold detectPatternToSanitize.
  destruct (test re_pan_value value || test re_pan_key (toLowerCase key)); [discriminate|].
  destruct (test re_phone_value value) eqn:Hphone; [discriminate|]. cbn [orb].
  destruct (test re_phone_key (toLowerCase key)); [discriminate|].
  destruct (test re_aadhar_value value); [discriminate|].
  destruct (test re_cvv_key (toLowerCase key) || test re_cvv_value value); [discriminate|].
  destruct (test re_email_value value); [discriminate|].
  destruct (test re_password_key (toLowerCase key)); [discriminate|].
  destruct (test re_card_key (toLowerCase key)); [reflexivity|]. cbn [orb].
  destruct (13 <? String.length value) eqn:Hlo; [|discriminate].
  destruct (String.length value <? 19); [|discriminate]. cbn [andb].
  destruct (luhnAlgorithm value) eqn:Hluhn; [|discriminate].
  apply Nat.ltb_lt in Hlo.
  now rewrite (luhn_value_is_phone_value value Hlo Hluhn) in Hphone.
Qed.

(* ================================================================== *)
(** * The leaf policy                                                  *)
(* ================================================================== *)

Section PolicyFacts.
Context `{NodeCrypto} `{RegExpEngine}.

Lemma last_segment_snoc path key : last_segment (path ++ [key]) = Some key.
Proof. unfold last_segment. rewrite map_app. cbn [map]. apply last_last. Qed.

Lemma includes_In l x : includes l x = true <-> In x l.
Proof.
  unfold includes. rewrite existsb_exists. split.
  - intros (y & Hy & Heq). apply String.eqb_eq in Heq. now subst.
  - intros Hx. exists x. split; [assumption | apply String.eqb_refl].
Qed.

Lemma advance_advance r n m : advance (advance r n) m = advance r (n + m).
Proof. unfold advance; cbn. now rewrite Nat.add_assoc. Qed.

(** *** The loop over the patterns *)

Lemma regex_loop_all_miss this patterns val r :
  forallb (pattern_misses val) patterns = true ->
  regex_loop this patterns val r = Ok (None, r).
Proof.
  induction patterns as [|reStr patterns IH]; intros Hmiss; [reflexivity|].
  cbn in Hmiss. apply andb_true_iff in Hmiss as [Hone Hrest].
  unfold pattern_misses in Hone.
  cbn [regex_loop]. unfold bind, lift, RegExp_new.
  destruct (RegExp_compile reStr) as [re|]; [|discriminate].
  apply negb_true_iff in Hone. rewrite Hone. now apply IH.
Qed.

Lemma regex_step_none this val r :
  no_pattern_applies (regexToSanitize (cfg this)) val = true ->
  match regexToSanitize (cfg this) with
  | Some ((_ :: _) as patterns) => regex_loop this patterns val
  | _ => ret None
  end r = Ok (None, r).
Proof.
  unfold no_pattern_applies.
  destruct (regexToSanitize (cfg this)) as [[|reStr patterns]|];
    try reflexivity.
  apply regex_loop_all_miss.
Qed.

(** The loop stops at the first pattern that matches: the patterns
    after it play no part. *)
Lemma regex_loop_first_match this before reStr re after val r :
  forallb (pattern_misses val) before = true ->
  RegExp_compile reStr = Some re ->
  RegExp_test re val = true ->
  regex_loop this (before ++ reStr :: after) val r
  = (out <- String_replace val re (fun m => maskPattern this custom m) ;;
     ret (Some out)) r.
Proof.
  intros Hmiss Hre Htest.
  induction before as [|p before IH]; cbn [app regex_loop].
  - unfold bind at 1. unfold lift, RegExp_new. now rewrite Hre, Htest.
  - cbn in Hmiss. apply andb_true_iff in Hmiss as [Hone Hrest].
    unfold pattern_misses in Hone.
    unfold bind at 1. unfold lift, RegExp_new.
    destruct (RegExp_compile p) as [q|]; [|discriminate].
    apply negb_true_iff in Hone. rewrite Hone. now apply IH.
Qed.

(** *** The matches of a global pattern *)

Lemma exec_scan_bounds re s n i0 i e :
  exec_scan re s n i0 = Some (i, e) -> i0 <= i /\ i <= e <= String.length s.
Proof.
  revert i0; induction n as [|n IH]; intros i0; cbn; [discriminate|].
  destruct (matcher re s i0) as [e0|] eqn:Hm.
  - intros [= <- <-]. apply matcher_bounds in Hm. lia.
  - intros Hscan. apply IH in Hscan. lia.
Qed.

Lemma RegExp_exec_bounds re s lastIndex i e :
  RegExp_exec re s lastIndex = Some (i, e) ->
  lastIndex <= i /\ i <= e <= String.length s.
Proof.
  unfold RegExp_exec. destruct (String.length s <? lastIndex); [discriminate|].
  apply exec_scan_bounds.
Qed.

Lemma RegExp_exec_past_end re s lastIndex :
  String.length s < lastIndex -> RegExp_exec re s lastIndex = None.
Proof.
  intros Hlt. unfold RegExp_exec.
  now apply Nat.ltb_lt in Hlt as ->.
Qed.

(** Enough rounds: with at least [length s + 2 - lastIndex] of them the
    collection ends because [exec] failed, and more rounds change
    nothing. *)
Lemma collect_matches_enough re s fuel fuel' lastIndex :
  String.length s + 2 - lastIndex <= fuel ->
  String.length s + 2 - lastIndex <= fuel' ->
  collect_matches re s fuel lastIndex = collect_matches re s fuel' lastIndex.
Proof.
  revert fuel' lastIndex; induction fuel as [|fuel IH]; intros fuel' lastIndex Hf Hf'.
  - assert (Hpast : String.length s < lastIndex) by lia.
    destruct fuel'; cbn; [reflexivity|].
    now rewrite RegExp_exec_past_end.
  - destruct fuel' as [|fuel'].
    + assert (Hpast : String.length s < lastIndex) by lia.
      cbn. now rewrite RegExp_exec_past_end.
    + cbn. destruct (RegExp_exec re s lastIndex) as [[i e]|] eqn:Hexec;
        [|reflexivity].
      apply RegExp_exec_bounds in Hexec. f_equal.
      apply IH; destruct (Nat.eqb_spec e i); lia.
Qed.

Lemma all_matches_enough re s fuel :
  String.length s + 2 <= fuel -> collect_matches re s fuel 0 = all_matches re s.
Proof. intros Hf. unfold all_matches. apply collect_matches_enough; lia. Qed.

Lemma collect_matches_chained re s fuel lastIndex next :
  next <= lastIndex -> chained next (collect_matches re s fuel lastIndex).
Proof.
  revert lastIndex next; induction fuel as [|fuel IH]; intros lastIndex next Hle;
    cbn; [exact I|].
  destruct (RegExp_exec re s lastIndex) as [[i e]|] eqn:Hexec; cbn; [|exact I].
  apply RegExp_exec_bounds in Hexec.
  repeat split; try lia.
  apply IH. destruct (Nat.eqb_spec e i); lia.
Qed.

Lemma slice_then_drop s next i :
  next <= i -> (slice s next i ++ drop i s)%string = drop next s.
Proof.
  intros Hle. unfold slice.
  replace (drop i s) with (drop (i - next) (drop next s))
    by (rewrite drop_drop; f_equal; lia).
  apply take_drop.
Qed.

(** Cutting a string along chained matches loses nothing. *)
Lemma plain_text_chained s results next :
  chained next results -> plain_text s results next = drop next s.
Proof.
  revert next; induction results as [|[i e] results IH]; intros next; cbn;
    [reflexivity|].
  intros (Hni & Hie & Hrest).
  rewrite (IH e Hrest), (slice_then_drop s i e Hie).
  now apply slice_then_drop.
Qed.

(** [splice] with the masking replacer never throws and reads 16 random
    bytes per match. *)
Lemma splice_maskPattern this s results next r :
  splice s results next (fun m => maskPattern this custom m) r
  = Ok (masked_text this s results next r, advance r (16 * List.length results)).
Proof.
  revert next r; induction results as [|[i e] results IH]; intros next r.
  - cbn. unfold ret, advance. destruct r; cbn. now rewrite Nat.add_0_r.
  - cbn [splice masked_text]. unfold bind.
    rewrite maskPattern_run, IH. unfold ret.
    rewrite advance_advance. do 3 f_equal. cbn [List.length]. lia.
Qed.

Lemma test_true_all_matches re s :
  RegExp_test re s = true -> all_matches re s <> [].
Proof.
  unfold RegExp_test, all_matches.
  rewrite Nat.add_comm. cbn [Nat.add collect_matches].
  destruct (RegExp_exec re s 0) as [[i e]|]; discriminate.
Qed.
End PolicyFacts.

(* ================================================================== *)
(** * The walkers                                                      *)
(* ================================================================== *)

Section WalkerFacts.
Context `{NodeCrypto} `{RegExpEngine}.

Lemma detectPatternToSanitize_defined key value :
  exists piiType, detectPatternToSanitize (Some key) value = Ok piiType.
Proof.
  unfold detectPatternToSanitize.
  repeat match goal with
         | |- context [if ?b then _ else _] => destruct b
         end; eexists; reflexivity.
Qed.

(** Out of scope, the value is returned as it is. *)
Lemma sanitizeObject_out_of_scope this obj route r :
  truthy (disable (cfg this)) || route_excluded this route = true ->
  sanitizeObject this obj route r = Ok (obj, r).
Proof.
  unfold sanitizeObject. destruct (truthy (disable (cfg this))); [reflexivity|].
  cbn [orb]. now intros ->.
Qed.

(** For anything but an object or a string, [walk] ends without a
    [return]. *)
Lemma walk_undefined this val path r :
  match val with VObject _ | VString _ => False | _ => True end ->
  walk this val path r = Ok (VUndefined, r).
Proof. destruct val; intros Hval; try contradiction; reflexivity. Qed.

(** Two sanitizers that treat every string leaf alike treat every value
    alike. *)
Lemma walk_ext this1 this2 :
  (forall s path r, walk_string this1 s path r = walk_string this2 s path r) ->
  forall val path r, walk this1 val path r = walk this2 val path r.
Proof.
  intros Hleaf. fix IH 1.
  intros [ | | b | n | s | items | entries] path r; try reflexivity.
  - apply Hleaf.
  - cbn [walk]. generalize (@nil (string * Value)) as out. revert r.
    induction entries as [|[k v] es IHes]; intros r out; [reflexivity|].
    unfold bind at 1 3. rewrite (IH v (path ++ [k]) r).
    destruct (walk this2 v (path ++ [k]) r) as [[v' r']|e]; [|reflexivity].
    apply IHes.
Qed.

Lemma assoc_set_fresh out k v :
  ~ In k (map fst out) -> assoc_set out k v = out ++ [(k, v)].
Proof.
  induction out as [|[k' v'] out IH]; cbn; [reflexivity|].
  intros Hfresh. destruct (String.eqb_spec k' k) as [->|_]; [tauto|].
  rewrite IH; tauto.
Qed.

(** An object whose keys are distinct own names is rebuilt entry by
    entry, in order, each value replaced by the result of walking it. *)
Lemma walk_object this entries path r :
  NoDup (map fst entries) ->
  ~ In "__proto__" (map fst entries) ->
  walk this (VObject entries) path r
  = (es <- walk_entries this path entries ;; ret (VObject es)) r.
Proof.
  intros Hdup Hproto. cbn [walk].
  change (VObject) with (fun es => VObject ([] ++ es)) at 2.
  assert (Hout : forall k, In k (map fst (@nil (string * Value))) ->
                           ~ In k (map fst entries)) by (intros k []).
  revert Hout. generalize (@nil (string * Value)) as out. revert r.
  induction entries as [|[k v] es IH]; intros r out Hout.
  - cbn. unfold bind, ret. now rewrite app_nil_r.
  - cbn [walk_entries]. cbv beta iota fix. fold (walk this v (path ++ [k])).
    unfold bind.
    destruct (walk this v (path ++ [k]) r) as [[v' r']|e]; [|reflexivity].
    cbn [map fst] in Hdup, Hproto. apply NoDup_cons_iff in Hdup as [Hk Hdup].
    unfold obj_set. destruct (String.eqb_spec k "__proto__") as [->|_];
      [cbn in Hproto; tauto|].
    rewrite assoc_set_fresh
      by (intros Hin; apply (Hout k Hin); now left).
    rewrite (IH Hdup) by
      (first [ intros Hin; apply Hproto; now right
             | intros k0 Hin0 Hes; rewrite map_app, in_app_iff in Hin0;
               destruct Hin0 as [Hin0|[<-|[]]];
               [apply (Hout k0 Hin0); now right | tauto] ]).
    unfold bind, ret.
    destruct (walk_entries this path es r') as [[rest r'']|e]; [|reflexivity].
    now rewrite <- app_assoc.
Qed.

(** [maxStringScanLen] is never read. *)
Lemma maxStringScanLen_not_read c cap cap' obj route r :
  sanitizeObject {| cfg := with_maxStringScanLen c cap |} obj route r
  = sanitizeObject {| cfg := with_maxStringScanLen c cap' |} obj route r.
Proof.
  unfold sanitizeObject, route_excluded. cbn [cfg with_maxStringScanLen disable
    allowlistRoutes denylistRoutes].
  destruct (truthy (disable c)); [reflexivity|].
  match goal with |- (if ?b then _ else _) _ = _ => destruct b end; [reflexivity|].
  apply walk_ext. reflexivity.
Qed.
End WalkerFacts.

(* ================================================================== *)
(** * The properties of the specification                              *)
(* ================================================================== *)

(** Route gating: with [allowlistRoutes = ["/signup"]], a body sent to
    [/login] is returned as it is. *)
Example login_not_in_allowlist :
  sanitizeObject {| cfg := explicit_config |} signup_body "/login" demo_rng
  = Ok (signup_body, demo_rng).
Proof. now apply sanitizeObject_out_of_scope. Qed.

(** The end-to-end scenario: with [fieldsToSanitize = ["password",
    "email"]], [username] and [phone] are kept, [password] and [email]
    are replaced by tokens, and decoding the result gives the body back. *)
Example signup_scenario :
  let this := {| cfg := signup_config |} in
  let r1 := advance demo_rng 16 in
  sanitizeObject this signup_body "/signup" demo_rng
  = Ok (VObject [("username", VString "JohnDoe");
                 ("password", VString (token_of this (next_iv demo_rng) "mysecretpass"));
                 ("email", VString (token_of this (next_iv r1) "john@example.com"));
                 ("phone", VString "9876543210")],
        advance demo_rng 32)
  /\ (v <-? (match sanitizeObject this signup_body "/signup" demo_rng with
             | Ok (v, _) => Ok v
             | Throw e => Throw e
             end) ;;
      decodeBody this v) = Ok signup_body.
Proof. split; vm_compute; reflexivity. Qed.

(** C1. On the body [{name, tags: [..], age: 30, active: true, spouse:
    null}] and a route in scope, [sanitizeObject] rebuilds the object with
    its keys in order and keeps the string, but the array, the number, the
    boolean and the null all come back as [undefined]: [walk] has no
    branch for them. *)
Theorem sanitizeObject_drops_arrays_and_scalars :
  sanitizeObject demo sample_body "/signup" demo_rng
  = Ok (VObject [("name", VString "JohnDoe");
                 ("tags", VUndefined);
                 ("age", VUndefined);
                 ("active", VUndefined);
                 ("spouse", VUndefined)], demo_rng).
Proof. vm_compute. reflexivity. Qed.

(** The sibling traversal does keep them. *)
Lemma decodeBody_keeps_arrays_and_scalars :
  decodeBody demo sample_body = Ok sample_body.
Proof. vm_compute. reflexivity. Qed.




(** C3. When [fieldsToSanitize] is configured and neither the skip list
    nor a configured pattern takes the leaf first, a string leaf is masked
    exactly when its field name is in the list: in the list, the result is
    the token of the value, whatever the value; not in the list, the
    result is the value itself, whatever it looks like.  The token differs
    from the value and decodes to the text of its UTF-8 bytes: to the
    value itself when it holds no unpaired surrogate. *)
Theorem explicit_fields_exclusive `{NodeCrypto} `{RegExpEngine}
        (this : Sanitizer) (val : string) (path fields : list string) (r : Rng) :
  fieldsToSanitize (cfg this) = Some fields ->
  opt_includes (fieldsToSkip (cfg this)) (last_segment path) = false ->
  no_pattern_applies (regexToSanitize (cfg this)) val = true ->
  walk this (VString val) path r
  = (if opt_includes (Some fields) (last_segment path)
     then Ok (VString (token_of this (next_iv r) val), advance r 16)
     else Ok (VString val, r))
  /\ token_of this (next_iv r) val <> val
  /\ decodeValue this (token_of this (next_iv r) val)
     = Ok (Buffer_toString_utf8 (Buffer_from_utf8 val))
  /\ (isWellFormed val = true ->
      decodeValue this (token_of this (next_iv r) val) = Ok val).
Proof.
  intros Hfields Hskip Hregex. split; [|split; [|split]].
  - cbn [walk]. unfold walk_string. rewrite Hskip.
    unfold bind at 1. rewrite (regex_step_none this val r Hregex), Hfields.
    destruct (opt_includes (Some fields) (last_segment path)) eqn:Hin;
      [|reflexivity].
    destruct (last_segment path) as [key|]; [|discriminate].
    destruct (detectPatternToSanitize_defined key val) as [piiType HpiiType].
    unfold bind, lift. rewrite HpiiType, maskPattern_run. reflexivity.
  - apply token_of_neq, length_next_iv.
  - apply decodeValue_token_of_bytes, length_next_iv.
  - apply decodeValue_token_of, length_next_iv.
Qed.

(** With [fieldsToSanitize = ["password"]]: an address under [email] is
    kept, and a name under [password] is masked. *)
Lemma explicit_fields_exclusive_witness :
  let this := {| cfg := explicit_config |} in
  walk this (VString "john@example.com") ["email"] demo_rng
  = Ok (VString "john@example.com", demo_rng)
  /\ walk this (VString "JohnDoe") ["password"] demo_rng
     = Ok (VString (token_of this (next_iv demo_rng) "JohnDoe"), advance demo_rng 16)
  /\ detectPatternToSanitize (Some "email") "john@example.com" = Ok email
  /\ detectPatternToSanitize (Some "name") "JohnDoe" = Ok custom.
Proof.
  split; [|split; [|split; reflexivity]].
  - apply (explicit_fields_exclusive {| cfg := explicit_config |} "john@example.com"
             ["email"] ["password"] demo_rng); reflexivity.
  - apply (explicit_fields_exclusive {| cfg := explicit_config |} "JohnDoe"
             ["password"] ["password"] demo_rng); reflexivity.
Defined.
(** C9. For every field name and every value the classifier never answers
    [aadhar]: a value that begins with twelve digits begins with ten, so
    the phone rule, which comes first, has already answered. *)
Theorem classifier_never_aadhar (key : option string) (value : string) :
  detectPatternToSanitize key value <> Ok aadhar.
Proof.
  unfold detectPatternToSanitize. destruct key as [key|]; [|discriminate].
  destruct (test re_pan_value value || test re_pan_key (toLowerCase key)); [discriminate|].
  destruct (test re_phone_value value) eqn:Hphone; [discriminate|]. cbn [orb].
  destruct (test re_phone_key (toLowerCase key)); [discriminate|].
  destruct (test re_aadhar_value value) eqn:Haadhar.
  - now rewrite (aadhar_value_is_phone_value value Haadhar) in Hphone.
  - repeat match goal with
           | |- context [if ?b then _ else _] => destruct b
           end; discriminate.
Qed.

(** C4. The field name "card" with the value "4111111111111111": the value
    has 16 characters and passes the Luhn checksum, yet the classifier
    answers [phone], because the value begins with ten digits and the
    phone rule comes before the card rule. *)
Theorem classify_card_4111111111111111 :
  detectPatternToSanitize (Some "card") "4111111111111111" = Ok phone
  /\ String.length "4111111111111111" = 16
  /\ luhnAlgorithm "4111111111111111" = true.
Proof. repeat split; vm_compute; reflexivity. Qed.




(** C6. A string leaf whose field name is in [fieldsToSkip] is returned
    as it is, and nothing is read from the random source, whatever the
    rest of the configuration says: patterns that match the value, the
    presence of the name in [fieldsToSanitize], the answer of the
    classifier. *)
Theorem skipped_field_unchanged `{NodeCrypto} `{RegExpEngine}
        (this : Sanitizer) (val : string) (path : list string) (key : string)
        (skip : list string) (r : Rng) :
  fieldsToSkip (cfg this) = Some skip ->
  In key skip ->
  walk this (VString val) (path ++ [key]) r = Ok (VString val, r).
Proof.
  intros Hskip Hin. cbn [walk]. unfold walk_string.
  rewrite last_segment_snoc, Hskip. cbn [opt_includes].
  apply includes_In in Hin. now rewrite Hin.
Qed.

(** The skipped name is also in [fieldsToSanitize], and the value matches
    the configured pattern and looks like a phone number. *)
Lemma skipped_field_unchanged_witness :
  fieldsToSanitize skip_config = Some ["card"; "email"]
  /\ pattern_misses "4111111111111111" "\d{10}" = false
  /\ walk {| cfg := skip_config |} (VString "4111111111111111")
          (["payment"] ++ ["card"]) demo_rng
     = Ok (VString "4111111111111111", demo_rng).
Proof.
  split; [reflexivity | split; [reflexivity|]].
  apply (skipped_field_unchanged {| cfg := skip_config |} "4111111111111111"
           ["payment"] "card" ["card"] demo_rng);
    [reflexivity | now left].
Defined.




(** C8. With [maxStringScanLen] set to 5, a string of 18 characters is
    still scanned against the configured pattern, and the match found in
    it is masked: the setting is never read. *)
Theorem long_string_still_scanned :
  let this := {| cfg := regex_config |} in
  maxStringScanLen (cfg this) = Some 5
  /\ String.length "9876543210 call me" = 18
  /\ sanitizeObject this (VObject [("note", VString "9876543210 call me")])
                    "/signup" demo_rng
     = Ok (VObject [("note", VString (token_of this (next_iv demo_rng) "9876543210"
                                      ++ " call me"))],
           advance demo_rng 16).
Proof. split; [reflexivity | split; [reflexivity | vm_compute; reflexivity]]. Qed.

(** C10. With a route in scope, no configured pattern that matches and
    [fieldsToSanitize] absent, [sanitizeObject] on a bare string throws a
    [TypeError]: the path is empty, the field name is [undefined], and the
    classifier calls [toLowerCase] on it.  (No hypothesis on
    [fieldsToSkip] is needed: [undefined] is in no list of names.) *)
Theorem root_string_throws `{NodeCrypto} `{RegExpEngine}
        (this : Sanitizer) (s : string) (route : string) (r : Rng) :
  truthy (disable (cfg this)) = false ->
  route_excluded this route = false ->
  no_pattern_applies (regexToSanitize (cfg this)) s = true ->
  fieldsToSanitize (cfg this) = None ->
  sanitizeObject this (VString s) route r = Throw TypeError.
Proof.
  intros Hdisable Hroute Hregex Hfields.
  unfold sanitizeObject. rewrite Hdisable, Hroute.
  cbn [walk]. unfold walk_string. cbn [last_segment map last].
  replace (opt_includes (fieldsToSkip (cfg this)) None) with false
    by (now destruct (fieldsToSkip (cfg this))).
  unfold bind at 1. rewrite (regex_step_none this s r Hregex), Hfields.
  reflexivity.
Qed.

Lemma root_string_throws_witness :
  sanitizeObject demo (VString "john@example.com") "/signup" demo_rng
  = Throw TypeError.
Proof.
  apply (root_string_throws demo "john@example.com" "/signup" demo_rng);
    reflexivity.
Defined.

(* ================================================================== *)
(** * Further properties of the code                                   *)
(* ================================================================== *)

(** Induction on a value, with the hypothesis for every element of an
    array and every entry of an object. *)
Lemma Value_nested_ind (P : Value -> Prop) :
  P VUndefined -> P VNull -> (forall b, P (VBoolean b)) ->
  (forall n, P (VNumber n)) -> (forall s, P (VString s)) ->
  (forall items, Forall P items -> P (VArray items)) ->
  (forall es, Forall (fun kv => P (snd kv)) es -> P (VObject es)) ->
  forall v, P v.
Proof.
  intros HU HN HB HF HS HA HO. fix IH 1.
  intros [ | | b | n | s | items | es];
    [exact HU | exact HN | apply HB | apply HF | apply HS | | ].
  - apply HA. induction items as [|item items IHitems]; constructor;
      [apply IH | exact IHitems].
  - apply HO. induction es as [|[k v] es IHes]; constructor;
      [apply IH | exact IHes].
Qed.

Section FurtherFacts.
Context `{NodeCrypto} `{RegExpEngine}.

Lemma walk_VObject this es path r :
  walk this (VObject es) path r = walk_each this path es [] r.
Proof.
  cbn [walk]. generalize (@nil (string * Value)) as out. revert r.
  induction es as [|[k v] es IH]; intros r out; [reflexivity|].
  cbn [walk_each]. cbv beta iota fix. fold (walk this v (path ++ [k])).
  unfold bind. destruct (walk this v (path ++ [k]) r) as [[v' r']|e];
    [apply IH | reflexivity].
Qed.

Lemma decodeBody_VObject this es :
  decodeBody this (VObject es) = decode_each this es [].
Proof.
  cbn [decodeBody]. generalize (@nil (string * Value)) as out.
  induction es as [|[k v] es IH]; intros out; [reflexivity|].
  cbn [decode_each]. cbv beta iota fix. fold (decodeBody this v).
  destruct (decodeBody this v) as [v'|e]; cbn [Res_bind].
  - apply IH.
  - reflexivity.
Qed.

Lemma decodeBody_VArray this items :
  decodeBody this (VArray items)
  = (items' <-? decode_items this items ;; Ok (VArray items')).
Proof.
  cbn [decodeBody]. f_equal.
Qed.
End FurtherFacts.

(** ** Objects: keys and order *)

Lemma distinct_NoDup ks : distinct ks = true -> NoDup ks.
Proof.
  induction ks as [|k ks IH]; cbn; [constructor|].
  intros Hd. apply andb_true_iff in Hd as [Hk Hd]. constructor; [|auto].
  intros Hin. apply includes_In in Hin. now rewrite Hin in Hk.
Qed.

Lemma own_keys_spec es :
  own_keys es = true -> NoDup (map fst es) /\ ~ In "__proto__" (map fst es).
Proof.
  unfold own_keys. intros Hk. apply andb_true_iff in Hk as [Hd Hp]. split.
  - now apply distinct_NoDup.
  - intros Hin. apply includes_In in Hin. now rewrite Hin in Hp.
Qed.

Section ObjectFacts.
Context `{NodeCrypto} `{RegExpEngine}.

Lemma walk_entries_keys this path es r es' r' :
  walk_entries this path es r = Ok (es', r') -> map fst es' = map fst es.
Proof.
  revert r es'; induction es as [|[k v] es IH]; intros r es'; cbn [walk_entries].
  - unfold ret. now intros [= <- <-].
  - unfold bind, ret.
    destruct (walk this v (path ++ [k]) r) as [[v' r1]|e]; [|discriminate].
    destruct (walk_entries this path es r1) as [[rest r2]|e] eqn:Hrest;
      [|discriminate].
    intros [= <- <-]. cbn. f_equal. exact (IH _ _ Hrest).
Qed.

Lemma walk_entries_values this path es r es' r' :
  walk_entries this path es r = Ok (es', r') ->
  Forall2 (fun kv kv' =>
             exists r1 r2,
               walk this (snd kv) (path ++ [fst kv]) r1 = Ok (snd kv', r2))
          es es'.
Proof.
  revert r es'; induction es as [|[k v] es IH]; intros r es'; cbn [walk_entries].
  - unfold ret. intros [= <- <-]. constructor.
  - unfold bind, ret.
    destruct (walk this v (path ++ [k]) r) as [[v' r1]|e] eqn:Hv; [|discriminate].
    destruct (walk_entries this path es r1) as [[rest r2]|e] eqn:Hrest;
      [|discriminate].
    intros [= <- <-]. constructor; [now exists r, r1 | exact (IH _ _ Hrest)].
Qed.
End ObjectFacts.

(** X1. An object whose keys are distinct own names comes back from
    [walk], when [walk] returns, as an object with the same keys in the
    same order, each value being the result of walking the value it
    replaces under the path extended by its key. *)
Theorem walk_object_keeps_keys `{NodeCrypto} `{RegExpEngine}
        (this : Sanitizer) (es : list (string * Value)) (path : list string)
        (r r' : Rng) (v : Value) :
  own_keys es = true ->
  walk this (VObject es) path r = Ok (v, r') ->
  exists es',
    v = VObject es'
    /\ map fst es' = map fst es
    /\ Forall2 (fun kv kv' =>
                  exists r1 r2,
                    walk this (snd kv) (path ++ [fst kv]) r1 = Ok (snd kv', r2))
               es es'.
Proof.
  intros Hkeys. destruct (own_keys_spec es Hkeys) as [Hdup Hproto].
  rewrite (walk_object this es path r Hdup Hproto). unfold bind, ret.
  destruct (walk_entries this path es r) as [[es' r1]|e] eqn:Hes; [|discriminate].
  intros [= <- <-]. exists es'. split; [reflexivity|]. split.
  - exact (walk_entries_keys _ _ _ _ _ _ Hes).
  - exact (walk_entries_values _ _ _ _ _ _ Hes).
Qed.

Lemma walk_object_keeps_keys_witness :
  exists es',
    VObject [("username", VString "JohnDoe");
             ("password", VString (token_of {| cfg := signup_config |}
                                            (next_iv demo_rng) "mysecretpass"))]
    = VObject es'
    /\ map fst es' = ["username"; "password"]
    /\ Forall2 (fun kv kv' =>
                  exists r1 r2,
                    walk {| cfg := signup_config |} (snd kv) ([] ++ [fst kv]) r1
                    = Ok (snd kv', r2))
               [("username", VString "JohnDoe"); ("password", VString "mysecretpass")]
               es'.
Proof.
  apply (walk_object_keeps_keys {| cfg := signup_config |}
           [("username", VString "JohnDoe"); ("password", VString "mysecretpass")]
           [] demo_rng (advance demo_rng 16));
    vm_compute; reflexivity.
Defined.

(** ** The path *)

Lemma last_segment_defined path :
  path <> [] -> exists key, last_segment path = Some key.
Proof.
  intros Hpath. destruct (exists_last Hpath) as (path' & key & ->).
  exists key. apply last_segment_snoc.
Qed.

Section PathFacts.
Context `{NodeCrypto} `{RegExpEngine}.

Lemma walk_each_last_segment this es :
  Forall (fun kv => forall path path' r,
              is_object (snd kv) = true \/ last_segment path = last_segment path' ->
              walk this (snd kv) path r = walk this (snd kv) path' r) es ->
  forall path path' out r,
    walk_each this path es out r = walk_each this path' es out r.
Proof.
  induction 1 as [|[k v] es Hv _ IH]; intros path path' out r; [reflexivity|].
  cbn [walk_each]. unfold bind. cbn [snd] in Hv.
  rewrite (Hv (path ++ [k]) (path' ++ [k]) r)
    by (right; now rewrite !last_segment_snoc).
  destruct (walk this v (path' ++ [k]) r) as [[v' r1]|e]; [apply IH | reflexivity].
Qed.
End PathFacts.

(** X2. The result of [walk] depends on the path only through its last
    segment, and for an object not even on that: two paths with the same
    last segment give the same result on every value, and any two paths
    give the same result on an object.  A field is treated by its own
    name alone, wherever it sits in the body. *)
Theorem walk_depends_on_last_segment `{NodeCrypto} `{RegExpEngine}
        (this : Sanitizer) (val : Value) (path path' : list string) (r : Rng) :
  is_object val = true \/ last_segment path = last_segment path' ->
  walk this val path r = walk this val path' r.
Proof.
  revert path path' r. induction val as [ | | b | n | s | items _ | es IH]
    using Value_nested_ind; intros path path' r Hpath; try reflexivity.
  - destruct Hpath as [Hobj|Hlast]; [discriminate|].
    cbn [walk]. unfold walk_string. now rewrite Hlast.
  - rewrite !walk_VObject. now apply walk_each_last_segment.
Qed.

Lemma walk_depends_on_last_segment_witness :
  walk {| cfg := explicit_config |} (VString "hunter2") ["user"; "password"] demo_rng
  = walk {| cfg := explicit_config |} (VString "hunter2") ["admin"; "old"; "password"]
         demo_rng.
Proof.
  apply (walk_depends_on_last_segment {| cfg := explicit_config |} (VString "hunter2")
           ["user"; "password"] ["admin"; "old"; "password"] demo_rng).
  right. reflexivity.
Defined.

(** ** When sanitizing throws *)

Section ThrowFacts.
Context `{NodeCrypto} `{RegExpEngine}.

Lemma regex_loop_returns this patterns val r :
  patterns_compile (Some patterns) = true ->
  exists out r', regex_loop this patterns val r = Ok (out, r').
Proof.
  cbn [patterns_compile].
  induction patterns as [|reStr patterns IH]; intros Hc; cbn [regex_loop].
  - now exists None, r.
  - cbn in Hc. apply andb_true_iff in Hc as [Hone Hrest].
    unfold bind at 1. unfold lift, RegExp_new.
    destruct (RegExp_compile reStr) as [re|]; [|discriminate].
    destruct (RegExp_test re val); [|now apply IH].
    unfold bind, String_replace. rewrite splice_maskPattern.
    unfold ret. eauto.
Qed.

Lemma walk_string_returns this val path r :
  patterns_compile (regexToSanitize (cfg this)) = true ->
  path <> [] ->
  exists out r', walk_string this val path r = Ok (VString out, r').
Proof.
  intros Hc Hpath. destruct (last_segment_defined path Hpath) as [key Hkey].
  unfold walk_string. rewrite Hkey.
  destruct (opt_includes (fieldsToSkip (cfg this)) (Some key));
    [unfold ret; eauto|].
  unfold bind at 1.
  assert (Hloop : exists masked r1,
             match regexToSanitize (cfg this) with
             | Some ((_ :: _) as patterns) => regex_loop this patterns val
             | _ => ret None
             end r = Ok (masked, r1)).
  { destruct (regexToSanitize (cfg this)) as [[|p ps]|];
      [unfold ret; eauto | now apply regex_loop_returns | unfold ret; eauto]. }
  destruct Hloop as (masked & r1 & ->).
  destruct masked as [out|]; [unfold ret; eauto|].
  destruct (detectPatternToSanitize_defined key val) as [piiType HpiiType].
  destruct (fieldsToSanitize (cfg this)) as [fields|].
  - destruct (opt_includes (Some fields) (Some key)); [|unfold ret; eauto].
    unfold bind, lift. rewrite HpiiType, maskPattern_run. unfold ret. eauto.
  - unfold bind at 1. unfold lift. rewrite HpiiType.
    destruct (negb (PiiType_eqb piiType custom)); [|unfold ret; eauto].
    unfold bind. rewrite maskPattern_run. unfold ret. eauto.
Qed.

Lemma walk_each_returns this es :
  Forall (fun kv => forall path r,
              path <> [] ->
              exists v' r', walk this (snd kv) path r = Ok (v', r')) es ->
  forall path out r, exists v' r', walk_each this path es out r = Ok (v', r').
Proof.
  induction 1 as [|[k v] es Hv _ IH]; intros path out r; cbn [walk_each].
  - unfold ret. eauto.
  - unfold bind. cbn [snd] in Hv.
    destruct (Hv (path ++ [k]) r) as (v' & r1 & ->); [now destruct path|].
    apply IH.
Qed.

Lemma walk_returns this val path r :
  patterns_compile (regexToSanitize (cfg this)) = true ->
  (forall s, val <> VString s) \/ path <> [] ->
  exists v' r', walk this val path r = Ok (v', r').
Proof.
  intros Hc. revert path r.
  induction val as [ | | b | n | s | items _ | es IH]
    using Value_nested_ind; intros path r Hpath;
    try (cbn; unfold ret; eauto; fail).
  - destruct Hpath as [Hs|Hpath]; [now destruct (Hs s)|].
    cbn [walk]. destruct (walk_string_returns this s path r Hc Hpath)
      as (out & r' & ->). eauto.
  - rewrite walk_VObject. apply walk_each_returns.
    eapply Forall_impl; [|exact IH]. intros kv Hkv p r0 Hp. apply Hkv. now right.
Qed.
End ThrowFacts.

(** X3. When every configured pattern compiles, [sanitizeObject] returns
    a value, and throws nothing, on every input that is not a bare
    string: inside an object every string leaf has a field name, so the
    classifier is never called on [undefined]. *)
Theorem sanitizeObject_returns `{NodeCrypto} `{RegExpEngine}
        (this : Sanitizer) (obj : Value) (route : string) (r : Rng) :
  patterns_compile (regexToSanitize (cfg this)) = true ->
  (forall s, obj <> VString s) ->
  exists v' r', sanitizeObject this obj route r = Ok (v', r').
Proof.
  intros Hc Hobj. unfold sanitizeObject.
  destruct (truthy (disable (cfg this))); [unfold ret; eauto|].
  destruct (route_excluded this route); [unfold ret; eauto|].
  apply walk_returns; [assumption | now left].
Qed.

Lemma sanitizeObject_returns_witness :
  exists v' r',
    sanitizeObject {| cfg := skip_config |}
      (VObject [("user", VObject [("card", VString "4111111111111111");
                                  ("email", VString "john@example.com")]);
                ("tags", VArray [VString "a"])])
      "/signup" demo_rng = Ok (v', r').
Proof.
  apply (sanitizeObject_returns {| cfg := skip_config |}
           (VObject [("user", VObject [("card", VString "4111111111111111");
                                       ("email", VString "john@example.com")]);
                     ("tags", VArray [VString "a"])])
           "/signup" demo_rng); [reflexivity | discriminate].
Defined.

(** ** Auto-detection *)

Section AutoDetectFacts.
Context `{NodeCrypto} `{RegExpEngine}.

Lemma match_anywhere_append re a b :
  match_at re b = true -> match_anywhere re (a ++ b) = true.
Proof.
  intros Hb. induction a as [|c a IH]; cbn [append].
  - destruct b; cbn [match_anywhere]; now rewrite Hb.
  - cbn [match_anywhere]. rewrite IH. apply orb_true_r.
Qed.

(** Two digits in a row anywhere in the value satisfy /\d{2,4}/. *)
Lemma two_digits_cvv_value a d1 d2 b :
  digit d1 = true -> digit d2 = true ->
  test re_cvv_value (a ++ String d1 (String d2 b)) = true.
Proof.
  intros Hd1 Hd2. unfold test. cbn [re_cvv_value unanchored anchored_start].
  apply match_anywhere_append. unfold match_at. cbn. rewrite Hd1, Hd2. cbn.
  now destruct b.
Qed.

Lemma two_digits_not_custom key a d1 d2 b :
  digit d1 = true -> digit d2 = true ->
  exists piiType,
    detectPatternToSanitize (Some key) (a ++ String d1 (String d2 b)) = Ok piiType
    /\ (piiType = pan_card \/ piiType = phone \/ piiType = cvv).
Proof.
  intros Hd1 Hd2. unfold detectPatternToSanitize.
  rewrite (two_digits_cvv_value a d1 d2 b Hd1 Hd2), orb_true_r.
  destruct (test re_pan_value _ || test re_pan_key _); [eauto|].
  destruct (test re_phone_value _) eqn:Hphone; [cbn; eauto|]. cbn [orb].
  destruct (test re_phone_key _); [eauto|].
  destruct (test re_aadhar_value _) eqn:Haadhar; [|eauto].
  now rewrite (aadhar_value_is_phone_value _ Haadhar) in Hphone.
Qed.

Lemma walk_string_auto this val path key r :
  fieldsToSanitize (cfg this) = None ->
  opt_includes (fieldsToSkip (cfg this)) (Some key) = false ->
  no_pattern_applies (regexToSanitize (cfg this)) val = true ->
  last_segment path = Some key ->
  forall piiType,
    detectPatternToSanitize (Some key) val = Ok piiType ->
    walk_string this val path r
    = if PiiType_eqb piiType custom then Ok (VString val, r)
      else Ok (VString (token_of this (next_iv r) val), advance r 16).
Proof.
  intros Hfields Hskip Hregex Hkey piiType HpiiType.
  unfold walk_string. rewrite Hkey, Hskip.
  unfold bind at 1. rewrite (regex_step_none this val r Hregex), Hfields.
  unfold bind at 1. unfold lift. rewrite HpiiType.
  destruct (PiiType_eqb piiType custom); cbn [negb]; [reflexivity|].
  unfold bind. now rewrite maskPattern_run.
Qed.
End AutoDetectFacts.

(** X4. Auto-detection.  With [fieldsToSanitize] absent, a string leaf
    that has a field name, is not skipped and is matched by no configured
    pattern is classified, and it is masked exactly when the classifier's
    answer is not [custom]; a [custom] leaf is returned as it is and no
    random byte is read. *)
Theorem auto_detect_masks_unless_custom `{NodeCrypto} `{RegExpEngine}
        (this : Sanitizer) (val : string) (path : list string) (key : string)
        (r : Rng) :
  fieldsToSanitize (cfg this) = None ->
  opt_includes (fieldsToSkip (cfg this)) (Some key) = false ->
  no_pattern_applies (regexToSanitize (cfg this)) val = true ->
  last_segment path = Some key ->
  exists piiType,
    detectPatternToSanitize (Some key) val = Ok piiType
    /\ walk this (VString val) path r
       = if PiiType_eqb piiType custom then Ok (VString val, r)
         else Ok (VString (token_of this (next_iv r) val), advance r 16).
Proof.
  intros Hfields Hskip Hregex Hkey.
  destruct (detectPatternToSanitize_defined key val) as [piiType HpiiType].
  exists piiType. split; [assumption|]. cbn [walk].
  now apply (walk_string_auto this val path key r).
Qed.

Lemma auto_detect_masks_unless_custom_witness :
  (exists piiType,
      detectPatternToSanitize (Some "username") "JohnDoe" = Ok piiType
      /\ walk demo (VString "JohnDoe") ["username"] demo_rng
         = if PiiType_eqb piiType custom then Ok (VString "JohnDoe", demo_rng)
           else Ok (VString (token_of demo (next_iv demo_rng) "JohnDoe"),
                    advance demo_rng 16))
  /\ detectPatternToSanitize (Some "username") "JohnDoe" = Ok custom.
Proof.
  split; [|reflexivity].
  apply (auto_detect_masks_unless_custom demo "JohnDoe" ["username"] "username"
           demo_rng); reflexivity.
Defined.

(** X5. In auto-detection every value that holds two digits in a row is
    masked, whatever the name of its field and whatever else the value
    holds: such a value is classified [pan_card], [phone] or [cvv], never
    [custom]. *)
Theorem auto_detect_masks_two_digits `{NodeCrypto} `{RegExpEngine}
        (this : Sanitizer) (a b : string) (d1 d2 : ascii) (path : list string)
        (key : string) (r : Rng) :
  fieldsToSanitize (cfg this) = None ->
  opt_includes (fieldsToSkip (cfg this)) (Some key) = false ->
  no_pattern_applies (regexToSanitize (cfg this)) (a ++ String d1 (String d2 b)) = true ->
  last_segment path = Some key ->
  digit d1 = true -> digit d2 = true ->
  walk this (VString (a ++ String d1 (String d2 b))) path r
  = Ok (VString (token_of this (next_iv r) (a ++ String d1 (String d2 b))),
        advance r 16).
Proof.
  intros Hfields Hskip Hregex Hkey Hd1 Hd2.
  destruct (two_digits_not_custom key a d1 d2 b Hd1 Hd2) as (piiType & HpiiType & Hcase).
  cbn [walk].
  rewrite (walk_string_auto this _ path key r Hfields Hskip Hregex Hkey piiType HpiiType).
  now destruct Hcase as [->|[->| ->]].
Qed.

Lemma auto_detect_masks_two_digits_witness :
  walk demo (VString ("Flat " ++ String "4" (String "2" ", Baker Street")))
       ["address"] demo_rng
  = Ok (VString (token_of demo (next_iv demo_rng)
                          ("Flat " ++ String "4" (String "2" ", Baker Street"))),
        advance demo_rng 16).
Proof.
  apply (auto_detect_masks_two_digits demo "Flat " ", Baker Street" "4" "2"
           ["address"] "address" demo_rng); reflexivity.
Defined.

(** ** Routes *)

Lemma routes_include_strings routes route :
  routes_include (filter (fun r => negb (is_RouteRegExp r)) routes) route
  = routes_include routes route.
Proof.
  unfold routes_include. induction routes as [|[s|src] routes IH]; cbn;
    [reflexivity | now rewrite IH | exact IH].
Qed.

Lemma routes_include_patterns routes route :
  forallb is_RouteRegExp routes = true -> routes_include routes route = false.
Proof.
  unfold routes_include. induction routes as [|[s|src] routes IH]; cbn;
    [reflexivity | discriminate | exact IH].
Qed.

(** X6. A pattern entry of [allowlistRoutes] or [denylistRoutes] has no
    effect: routes are compared with [includes], which a pattern never
    satisfies, so [sanitizeObject] gives the same result as with the
    pattern entries removed from both lists. *)
Theorem route_patterns_are_inert `{NodeCrypto} `{RegExpEngine}
        (c : PiiSanitizerConfig) (obj : Value) (route : string) (r : Rng) :
  sanitizeObject {| cfg := without_route_patterns c |} obj route r
  = sanitizeObject {| cfg := c |} obj route r.
Proof.
  unfold sanitizeObject, route_excluded.
  cbn [cfg without_route_patterns disable allowlistRoutes denylistRoutes].
  destruct (truthy (disable c)); [reflexivity|].
  replace (match option_map _ (allowlistRoutes c) with
           | Some routes => negb (routes_include routes route)
           | None => false
           end)
    with (match allowlistRoutes c with
          | Some routes => negb (routes_include routes route)
          | None => false
          end)
    by (destruct (allowlistRoutes c); cbn; [now rewrite routes_include_strings | reflexivity]).
  replace (match option_map _ (denylistRoutes c) with
           | Some routes => routes_include routes route
           | None => false
           end)
    with (match denylistRoutes c with
          | Some routes => routes_include routes route
          | None => false
          end)
    by (destruct (denylistRoutes c); cbn; [now rewrite routes_include_strings | reflexivity]).
  match goal with |- (if ?b then _ else _) _ = _ => destruct b end; [reflexivity|].
  apply walk_ext. reflexivity.
Qed.

(** X7. When [allowlistRoutes] holds nothing but patterns (or is empty),
    no route is in scope: [sanitizeObject] returns every input as it is,
    on every route, and masks nothing. *)
Theorem pattern_allowlist_admits_no_route `{NodeCrypto} `{RegExpEngine}
        (this : Sanitizer) (routes : list Route) (obj : Value) (route : string)
        (r : Rng) :
  allowlistRoutes (cfg this) = Some routes ->
  forallb is_RouteRegExp routes = true ->
  sanitizeObject this obj route r = Ok (obj, r).
Proof.
  intros Hallow Hpatterns. unfold sanitizeObject, route_excluded.
  rewrite Hallow, (routes_include_patterns routes route Hpatterns). cbn.
  now destruct (truthy (disable (cfg this))).
Qed.

Lemma pattern_allowlist_admits_no_route_witness :
  sanitizeObject {| cfg := readme_config |} signup_body "/signup" demo_rng
  = Ok (signup_body, demo_rng).
Proof.
  apply (pattern_allowlist_admits_no_route {| cfg := readme_config |}
           [RouteRegExp "\/signup"] signup_body "/signup" demo_rng); reflexivity.
Defined.

(** ** Tokens *)

Lemma lower_hex_digit_pair (x : byte) :
  lower_hex (hex_digit (Byte.to_nat x / 16)) = true
  /\ lower_hex (hex_digit (Byte.to_nat x mod 16)) = true.
Proof. destruct x; split; reflexivity. Qed.

Lemma lower_hex_Buffer_toString_hex (b : Buffer) :
  all_chars lower_hex (Buffer_toString_hex b) = true.
Proof.
  induction b as [|x b IH]; [reflexivity|].
  cbn [Buffer_toString_hex all_chars].
  destruct (lower_hex_digit_pair x) as [-> ->]. exact IH.
Qed.

Lemma iv_segment_hex b rest :
  iv_segment (Buffer_toString_hex b ++ String ":" rest) = Buffer_toString_hex b.
Proof.
  unfold iv_segment.
  now rewrite split_first_sep by apply Buffer_toString_hex_no_colon.
Qed.

Lemma append_inj_l (a b b' : string) : (a ++ b = a ++ b')%string -> b = b'.
Proof.
  induction a as [|c a IH]; cbn; [auto|]. intros [= Heq]. auto.
Qed.

Lemma Buffer_toString_hex_inj b b' :
  Buffer_toString_hex b = Buffer_toString_hex b' -> b = b'.
Proof.
  intros Heq. rewrite <- (Buffer_from_hex_toString_hex b),
    <- (Buffer_from_hex_toString_hex b'). now rewrite Heq.
Qed.

(** X8. The wire format.  [encodeValue] never throws; it reads 16 random
    bytes and returns 32 lowercase hexadecimal digits, a colon, and two
    lowercase hexadecimal digits for each byte of the value: the token
    holds exactly one colon and is 33 + 2n characters long for a value
    of n bytes. *)
Theorem encodeValue_format `{NodeCrypto}
        (this : Sanitizer) (val : string) (r : Rng) :
  exists ivHex cipherHex,
    encodeValue this val r = Ok ((ivHex ++ ":" ++ cipherHex)%string, advance r 16)
    /\ String.length ivHex = 32
    /\ String.length cipherHex = 2 * String.length val
    /\ all_chars lower_hex ivHex = true
    /\ all_chars lower_hex cipherHex = true.
Proof.
  exists (Buffer_toString_hex (next_iv r)),
    (Buffer_toString_hex (ctr_xor (getKey this) (next_iv r) 0 (Buffer_from_utf8 val))).
  split; [apply encodeValue_run|].
  rewrite !length_Buffer_toString_hex, length_ctr_xor, length_next_iv.
  rewrite length_Buffer_from_utf8.
  repeat split; apply lower_hex_Buffer_toString_hex.
Qed.

(** X9. A token determines what it was made from: if two calls of
    [encodeValue], on any values and at any states of the random source,
    return the same token, then they were given values with the same
    UTF-8 bytes and read the same 16 random bytes; two values without an
    unpaired surrogate are then the same value. *)
Theorem encodeValue_injective `{NodeCrypto}
        (this : Sanitizer) (val val' : string) (r r' r1 r1' : Rng) (token : string) :
  encodeValue this val r = Ok (token, r1) ->
  encodeValue this val' r' = Ok (token, r1') ->
  Buffer_from_utf8 val = Buffer_from_utf8 val'
  /\ next_iv r = next_iv r'
  /\ (isWellFormed val = true -> isWellFormed val' = true -> val = val').
Proof.
  rewrite !encodeValue_run. intros Htoken Htoken'.
  assert (Heq : token_of this (next_iv r') val' = token_of this (next_iv r) val)
    by congruence.
  clear Htoken Htoken'.
  assert (Hiv : next_iv r = next_iv r').
  { apply Buffer_toString_hex_inj.
    apply (f_equal iv_segment) in Heq. unfold token_of in Heq. cbn [append] in Heq.
    now rewrite !iv_segment_hex in Heq. }
  assert (Hbytes : Buffer_from_utf8 val = Buffer_from_utf8 val').
  { unfold token_of in Heq. rewrite Hiv in Heq.
    apply append_inj_l in Heq. cbn [append] in Heq. injection Heq as Heq.
    apply Buffer_toString_hex_inj in Heq.
    apply (f_equal (ctr_xor (getKey this) (next_iv r') 0)) in Heq.
    now rewrite !ctr_xor_involutive in Heq. }
  split; [exact Hbytes | split; [exact Hiv|]].
  intros Hval Hval'. now apply Buffer_from_utf8_inj.
Qed.

Lemma encodeValue_injective_witness :
  Buffer_from_utf8 "JohnDoe" = Buffer_from_utf8 "JohnDoe"
  /\ next_iv demo_rng = next_iv demo_rng
  /\ "JohnDoe" = "JohnDoe".
Proof.
  assert (Htoken : encodeValue demo "JohnDoe" demo_rng
                   = Ok (token_of demo (next_iv demo_rng) "JohnDoe",
                         advance demo_rng 16)) by reflexivity.
  destruct (encodeValue_injective demo "JohnDoe" "JohnDoe" demo_rng demo_rng
              (advance demo_rng 16) (advance demo_rng 16)
              (token_of demo (next_iv demo_rng) "JohnDoe") Htoken Htoken)
    as (Hbytes & Hiv & Hval).
  split; [exact Hbytes | split; [exact Hiv | now apply Hval]].
Defined.

(** X10. Decoding needs the secret and nothing else, and checks nothing.
    A token made by one sanitizer from a value without an unpaired
    surrogate is decoded to that value by any sanitizer that has the same
    [signingSecret], whatever the rest of its configuration; a sanitizer
    with another secret does not fail on a token either: it returns a
    string. *)
Theorem decodeValue_across_sanitizers `{NodeCrypto}
        (this other : Sanitizer) (val : string) (r r' : Rng) (token : string) :
  encodeValue this val r = Ok (token, r') ->
  (exists s, decodeValue other token = Ok s)
  /\ (signingSecret (cfg other) = signingSecret (cfg this) ->
      isWellFormed val = true ->
      decodeValue other token = Ok val).
Proof.
  rewrite encodeValue_run. intros Htoken.
  assert (Heq : token = token_of this (next_iv r) val) by congruence.
  subst token. clear Htoken. split.
  - unfold decodeValue, token_of. cbn [append].
    rewrite split_first_sep by apply Buffer_toString_hex_no_colon.
    rewrite split_no_sep by apply Buffer_toString_hex_no_colon.
    rewrite !Buffer_from_hex_toString_hex.
    unfold createDecipheriv, createCipheriv.
    rewrite length_next_iv, length_getKey. cbn. eauto.
  - intros Hsecret Hval.
    replace (token_of this (next_iv r) val) with (token_of other (next_iv r) val)
      by (unfold token_of, getKey; now rewrite Hsecret).
    apply decodeValue_token_of; [apply length_next_iv | exact Hval].
Qed.

Lemma decodeValue_across_sanitizers_witness :
  (exists s, decodeValue {| cfg := readme_config |}
                         (token_of demo (next_iv demo_rng) "john@example.com") = Ok s)
  /\ decodeValue {| cfg := skip_config |}
                 (token_of demo (next_iv demo_rng) "john@example.com")
     = Ok "john@example.com".
Proof.
  split.
  - apply (decodeValue_across_sanitizers demo {| cfg := readme_config |}
             "john@example.com" demo_rng (advance demo_rng 16)). reflexivity.
  - apply (decodeValue_across_sanitizers demo {| cfg := skip_config |}
             "john@example.com" demo_rng (advance demo_rng 16)); reflexivity.
Defined.

Lemma split_append_no_sep sep a b :
  includes_char sep a = false ->
  split sep (a ++ b) = (a ++ hd "" (split sep b))%string :: tl (split sep b).
Proof.
  induction a as [|x a IH]; cbn [append].
  - intros _. destruct (split sep b) as [|seg segs] eqn:Hb;
      [now apply split_not_nil in Hb | reflexivity].
  - cbn [includes_char split]. intros Hs. apply orb_false_iff in Hs as [Hx Hs].
    now rewrite Hx, (IH Hs).
Qed.

(** The first segment of text that begins with an ASCII character other
    than a hexadecimal digit decodes to no byte. *)
Lemma Buffer_from_hex_first_segment c rest :
  in_range "000" "127" c = true -> unhex c = None ->
  Buffer_from_hex (hd "" (split ":" (String c rest))) = [].
Proof.
  intros Hascii Hc. cbn [split]. destruct (Ascii.eqb c ":"); [reflexivity|].
  destruct (split ":" rest) as [|seg segs]; cbn [hd];
    now apply Buffer_from_hex_bad_start.
Qed.

(** X11. What follows a token is lost.  If a token made by [encodeValue]
    is followed by text that begins with an ASCII character other than a
    hexadecimal digit, as a match masked at the head of a longer string
    is, then decoding the whole string gives what decoding the token
    alone gives, and nothing of the text after it: for a value without
    an unpaired surrogate, the value the token was made from. *)
Theorem decodeValue_drops_text_after_token `{NodeCrypto}
        (this : Sanitizer) (val : string) (c : ascii) (rest : string)
        (r r' : Rng) (token : string) :
  encodeValue this val r = Ok (token, r') ->
  in_range "000" "127" c = true ->
  unhex c = None ->
  decodeValue this (token ++ String c rest) = decodeValue this token
  /\ decodeBody this (VString (token ++ String c rest))
     = decodeBody this (VString token)
  /\ (isWellFormed val = true ->
      decodeValue this (token ++ String c rest) = Ok val).
Proof.
  rewrite encodeValue_run. intros Htoken Hascii Hc.
  assert (Heq : token = token_of this (next_iv r) val) by congruence.
  subst token. clear Htoken.
  assert (Hdecode : decodeValue this (token_of this (next_iv r) val ++ String c rest)
                    = decodeValue this (token_of this (next_iv r) val)).
  { rewrite (decodeValue_token_of_bytes this (next_iv r) val (length_next_iv r)).
    unfold decodeValue, token_of. rewrite !append_assoc. cbn [append].
    rewrite split_first_sep by apply Buffer_toString_hex_no_colon.
    rewrite split_append_no_sep by apply Buffer_toString_hex_no_colon.
    rewrite Buffer_from_hex_toString_hex, Buffer_from_hex_append.
    rewrite (Buffer_from_hex_first_segment c rest Hascii Hc), app_nil_r.
    unfold createDecipheriv, createCipheriv.
    rewrite length_next_iv, length_getKey. cbn.
    now rewrite ctr_xor_involutive. }
  split; [exact Hdecode | split].
  - cbn [decodeBody]. rewrite Hdecode.
    unfold token_of. rewrite !includes_char_append. cbn.
    now rewrite !orb_true_r.
  - intros Hval. rewrite Hdecode.
    apply decodeValue_token_of; [apply length_next_iv | exact Hval].
Qed.

Lemma decodeValue_drops_text_after_token_witness :
  decodeValue demo (token_of demo (next_iv demo_rng) "9876543210" ++ " call me")
  = decodeValue demo (token_of demo (next_iv demo_rng) "9876543210")
  /\ decodeBody demo
       (VString (token_of demo (next_iv demo_rng) "9876543210" ++ " call me"))
     = decodeBody demo (VString (token_of demo (next_iv demo_rng) "9876543210"))
  /\ decodeValue demo (token_of demo (next_iv demo_rng) "9876543210" ++ " call me")
     = Ok "9876543210".
Proof.
  assert (Htoken : encodeValue demo "9876543210" demo_rng
                   = Ok (token_of demo (next_iv demo_rng) "9876543210",
                         advance demo_rng 16)) by reflexivity.
  assert (Hascii : in_range "000" "127" " " = true) by reflexivity.
  assert (Hc : unhex " " = None) by reflexivity.
  destruct (decodeValue_drops_text_after_token demo "9876543210" " " "call me"
              demo_rng (advance demo_rng 16)
              (token_of demo (next_iv demo_rng) "9876543210")
              Htoken Hascii Hc) as (Hvalue & Hbody & Hval).
  split; [exact Hvalue | split; [exact Hbody | now apply Hval]].
Defined.

(** ** Decoding a body *)

Section DecodeFacts.
Context `{NodeCrypto}.

Lemma decodeValue_throws_invalid_iv this s e :
  includes_char ":" s = true ->
  decodeValue this s = Throw e -> e = ERR_CRYPTO_INVALID_IV.
Proof.
  intros Hcolon. unfold decodeValue.
  destruct (split_two_segments _ _ Hcolon) as (ivHex & encryptedHex & segs & ->).
  unfold createDecipheriv, createCipheriv. rewrite length_getKey.
  destruct (List.length (Buffer_from_hex ivHex) =? 16); cbn; congruence.
Qed.

Lemma decode_items_throws this items e :
  Forall (fun v => forall e, decodeBody this v = Throw e -> e = ERR_CRYPTO_INVALID_IV)
         items ->
  decode_items this items = Throw e -> e = ERR_CRYPTO_INVALID_IV.
Proof.
  induction 1 as [|item items Hitem _ IH]; cbn [decode_items]; [discriminate|].
  destruct (decodeBody this item) as [item'|e0] eqn:Hd; cbn [Res_bind].
  - destruct (decode_items this items) as [rest|e1]; cbn [Res_bind];
      [discriminate|]. intros [= <-]. now apply IH.
  - intros [= <-]. now apply Hitem.
Qed.

Lemma decode_each_throws this es e :
  Forall (fun kv => forall e, decodeBody this (snd kv) = Throw e ->
                              e = ERR_CRYPTO_INVALID_IV) es ->
  forall out, decode_each this es out = Throw e -> e = ERR_CRYPTO_INVALID_IV.
Proof.
  induction 1 as [|[k v] es Hv _ IH]; intros out; cbn [decode_each]; [discriminate|].
  cbn [snd] in Hv.
  destruct (decodeBody this v) as [v'|e0] eqn:Hd; cbn [Res_bind].
  - apply IH.
  - intros [= <-]. now apply Hv.
Qed.

Lemma decodeBody_throws this v e :
  decodeBody this v = Throw e -> e = ERR_CRYPTO_INVALID_IV.
Proof.
  revert e. induction v as [ | | b | n | s | items IH | es IH]
    using Value_nested_ind; intros e; try discriminate.
  - cbn [decodeBody]. destruct (includes_char ":" s) eqn:Hcolon; [|discriminate].
    destruct (decodeValue this s) as [s'|e0] eqn:Hd; cbn [Res_bind]; [discriminate|].
    intros [= <-]. exact (decodeValue_throws_invalid_iv this s e0 Hcolon Hd).
  - rewrite decodeBody_VArray.
    destruct (decode_items this items) as [items'|e0] eqn:Hd; cbn [Res_bind];
      [discriminate|]. intros [= <-]. exact (decode_items_throws this items e0 IH Hd).
  - rewrite decodeBody_VObject. now apply decode_each_throws.
Qed.

(** A colon in a string that begins with an ASCII character other than
    a hexadecimal digit: the text before the colon decodes to no byte at
    all. *)
Lemma decodeValue_bad_start this c s :
  in_range "000" "127" c = true ->
  unhex c = None ->
  includes_char ":" (String c s) = true ->
  decodeValue this (String c s) = Throw ERR_CRYPTO_INVALID_IV.
Proof.
  intros Hascii Hc Hcolon. unfold decodeValue.
  pose proof (Buffer_from_hex_first_segment c s Hascii Hc) as Hiv.
  destruct (split_two_segments _ _ Hcolon) as (ivHex & encryptedHex & segs & Hsplit).
  rewrite Hsplit in *. cbn [hd] in Hiv.
  unfold createDecipheriv, createCipheriv. now rewrite Hiv.
Qed.

Lemma decode_items_leaves this items items' :
  Forall (fun v => forall v', decodeBody this v = Ok v' ->
            Forall (fun s => includes_char ":" s = true ->
                             exists t, decodeValue this s = Ok t) (strings_of v))
         items ->
  decode_items this items = Ok items' ->
  Forall (fun s => includes_char ":" s = true -> exists t, decodeValue this s = Ok t)
         (flat_map strings_of items).
Proof.
  intros Hall. revert items'.
  induction Hall as [|item items Hitem _ IH]; intros items'; cbn [decode_items flat_map];
    [constructor|].
  destruct (decodeBody this item) as [item'|e0] eqn:Hd; cbn [Res_bind]; [|discriminate].
  destruct (decode_items this items) as [rest|e1] eqn:Hrest; cbn [Res_bind];
    [|discriminate].
  intros _. apply Forall_app. split; [exact (Hitem _ eq_refl) | exact (IH _ eq_refl)].
Qed.

Lemma decode_each_leaves this es :
  Forall (fun kv => forall v', decodeBody this (snd kv) = Ok v' ->
            Forall (fun s => includes_char ":" s = true ->
                             exists t, decodeValue this s = Ok t) (strings_of (snd kv)))
         es ->
  forall out v',
    decode_each this es out = Ok v' ->
    Forall (fun s => includes_char ":" s = true -> exists t, decodeValue this s = Ok t)
           (flat_map (fun kv => match kv with (_, v0) => strings_of v0 end) es).
Proof.
  induction 1 as [|[k v] es Hv _ IH]; intros out v'; cbn [decode_each flat_map];
    [constructor|].
  cbn [snd] in Hv.
  destruct (decodeBody this v) as [v1|e0] eqn:Hd; cbn [Res_bind]; [|discriminate].
  intros Hrest. apply Forall_app. split; [exact (Hv _ eq_refl) | exact (IH _ _ Hrest)].
Qed.

Lemma decodeBody_leaves this v v' :
  decodeBody this v = Ok v' ->
  Forall (fun s => includes_char ":" s = true -> exists t, decodeValue this s = Ok t)
         (strings_of v).
Proof.
  revert v'. induction v as [ | | b | n | s | items IH | es IH]
    using Value_nested_ind; intros v'; try (intros _; constructor; fail).
  - cbn [decodeBody strings_of]. intros Hd. constructor; [|constructor].
    intros Hcolon. rewrite Hcolon in Hd.
    destruct (decodeValue this s) as [t|e]; [eauto | discriminate].
  - rewrite decodeBody_VArray. cbn [strings_of].
    destruct (decode_items this items) as [items'|e0] eqn:Hd; cbn [Res_bind];
      [|discriminate]. intros _. exact (decode_items_leaves this items items' IH Hd).
  - rewrite decodeBody_VObject. cbn [strings_of]. now apply decode_each_leaves.
Qed.
End DecodeFacts.

(** X12. The only exception [decodeBody] can raise is the cipher's
    invalid-initialization-vector error: whatever the body, it either
    returns a value or throws that error. *)
Theorem decodeBody_only_throws_invalid_iv `{NodeCrypto}
        (this : Sanitizer) (v : Value) (e : Exn) :
  decodeBody this v = Throw e -> e = ERR_CRYPTO_INVALID_IV.
Proof. apply decodeBody_throws. Qed.

Lemma decodeBody_only_throws_invalid_iv_witness :
  ERR_CRYPTO_INVALID_IV = ERR_CRYPTO_INVALID_IV.
Proof.
  apply (decodeBody_only_throws_invalid_iv demo
           (VObject [("site", VString "http://example.com")]) ERR_CRYPTO_INVALID_IV).
  reflexivity.
Defined.

(** X13. One string is enough to make [decodeBody] fail on a whole body:
    if any string leaf, at any depth, holds a colon and begins with an
    ASCII character that is not a hexadecimal digit (a URL, a label
    followed by a colon), [decodeBody] throws, and nothing of the body
    is returned. *)
Theorem decodeBody_fails_on_one_string `{NodeCrypto}
        (this : Sanitizer) (v : Value) (c : ascii) (s : string) :
  In (String c s) (strings_of v) ->
  includes_char ":" (String c s) = true ->
  in_range "000" "127" c = true ->
  unhex c = None ->
  decodeBody this v = Throw ERR_CRYPTO_INVALID_IV.
Proof.
  intros Hin Hcolon Hascii Hc.
  destruct (decodeBody this v) as [v'|e] eqn:Hd.
  - pose proof (decodeBody_leaves this v v' Hd) as Hleaves.
    rewrite Forall_forall in Hleaves.
    destruct (Hleaves _ Hin Hcolon) as [t Ht].
    now rewrite (decodeValue_bad_start this c s Hascii Hc Hcolon) in Ht.
  - now rewrite (decodeBody_throws this v e Hd).
Qed.

Lemma decodeBody_fails_on_one_string_witness :
  decodeBody demo
    (VObject [("name", VString "JohnDoe");
              ("links", VArray [VObject [("site", VString "http://example.com")]])])
  = Throw ERR_CRYPTO_INVALID_IV.
Proof.
  apply (decodeBody_fails_on_one_string demo
           (VObject [("name", VString "JohnDoe");
                     ("links", VArray [VObject [("site", VString "http://example.com")]])])
           "h" "ttp://example.com");
    [cbn; auto | reflexivity | reflexivity | reflexivity].
Defined.

(** ** Bodies that decode to themselves, and the round trip *)

Section RoundTripFacts.
Context `{NodeCrypto} `{RegExpEngine}.

(** [decodeBody] on an object with own keys decodes the entries in
    order. *)
Lemma decode_each_entries this es :
  forall out,
    NoDup (map fst es) -> ~ In "__proto__" (map fst es) ->
    (forall k, In k (map fst out) -> ~ In k (map fst es)) ->
    decode_each this es out
    = (es' <-? decode_entries this es ;; Ok (VObject (out ++ es'))).
Proof.
  induction es as [|[k v] es IH]; intros out Hdup Hproto Hout.
  - cbn. now rewrite app_nil_r.
  - cbn [decode_each decode_entries].
    destruct (decodeBody this v) as [v'|e]; cbn [Res_bind]; [|reflexivity].
    cbn [map fst] in Hdup, Hproto. apply NoDup_cons_iff in Hdup as [Hk Hdup].
    unfold obj_set. destruct (String.eqb_spec k "__proto__") as [->|_];
      [cbn in Hproto; tauto|].
    rewrite assoc_set_fresh by (intros Hin; apply (Hout k Hin); now left).
    rewrite (IH _ Hdup).
    + destruct (decode_entries this es) as [rest|e]; cbn [Res_bind]; [|reflexivity].
      now rewrite <- app_assoc.
    + intros Hin. apply Hproto. now right.
    + intros k0 Hin0 Hes. rewrite map_app, in_app_iff in Hin0.
      destruct Hin0 as [Hin0|[<-|[]]]; [apply (Hout k0 Hin0); now right | tauto].
Qed.

Lemma decodeBody_object this es :
  own_keys es = true ->
  decodeBody this (VObject es)
  = (es' <-? decode_entries this es ;; Ok (VObject es')).
Proof.
  intros Hkeys. destruct (own_keys_spec es Hkeys) as [Hdup Hproto].
  rewrite decodeBody_VObject.
  now rewrite (decode_each_entries this es [] Hdup Hproto) by (intros k []).
Qed.

Lemma decodeBody_token_free this v :
  token_free v = true -> decodeBody this v = Ok v.
Proof.
  induction v as [ | | b | n | s | items IH | es IH]
    using Value_nested_ind; try reflexivity.
  - cbn [token_free decodeBody]. intros Hs. apply negb_true_iff in Hs.
    now rewrite Hs.
  - cbn [token_free]. intros Hitems. rewrite decodeBody_VArray.
    replace (decode_items this items) with (Ok items); [reflexivity|].
    induction IH as [|item items Hitem _ IHitems]; [reflexivity|].
    cbn in Hitems. apply andb_true_iff in Hitems as [Hi Hitems].
    cbn [decode_items]. now rewrite (Hitem Hi), <- (IHitems Hitems).
  - cbn [token_free]. intros Hes. apply andb_true_iff in Hes as [Hkeys Hes].
    rewrite (decodeBody_object this es Hkeys).
    replace (decode_entries this es) with (Ok es); [reflexivity|].
    clear Hkeys. induction IH as [|[k v] es Hv _ IHes]; [reflexivity|].
    cbn in Hes. apply andb_true_iff in Hes as [Hi Hes].
    cbn [decode_entries]. cbn [snd] in Hv. now rewrite (Hv Hi), <- (IHes Hes).
Qed.

(** The leaf policy, when no pattern applies, answers with the value or
    with its token. *)
Lemma walk_string_outcome this val path r :
  no_pattern_applies (regexToSanitize (cfg this)) val = true ->
  path <> [] ->
  walk_string this val path r = Ok (VString val, r)
  \/ walk_string this val path r
     = Ok (VString (token_of this (next_iv r) val), advance r 16).
Proof.
  intros Hregex Hpath. destruct (last_segment_defined path Hpath) as [key Hkey].
  remember (walk_string this val path r) as w eqn:Hw.
  unfold walk_string in Hw. rewrite Hkey in Hw.
  destruct (opt_includes (fieldsToSkip (cfg this)) (Some key)); [now left|].
  unfold bind at 1 in Hw. rewrite (regex_step_none this val r Hregex) in Hw.
  destruct (detectPatternToSanitize_defined key val) as [piiType HpiiType].
  destruct (fieldsToSanitize (cfg this)) as [fields|].
  - destruct (opt_includes (Some fields) (Some key)); [|now left].
    right. unfold bind, lift in Hw. now rewrite HpiiType, maskPattern_run in Hw.
  - unfold bind at 1 in Hw. unfold lift in Hw. rewrite HpiiType in Hw.
    destruct (negb (PiiType_eqb piiType custom)); [|now left].
    right. unfold bind in Hw. now rewrite maskPattern_run in Hw.
Qed.

Lemma object_tree_token_free leaf v :
  (forall s, leaf s = true -> includes_char ":" s = false) ->
  object_tree leaf v = true -> token_free v = true.
Proof.
  intros Hleaf. induction v as [ | | b | n | s | items _ | es IH]
    using Value_nested_ind; try discriminate.
  - cbn. intros Hs. now rewrite (Hleaf s Hs).
  - cbn [object_tree token_free]. intros Hes.
    apply andb_true_iff in Hes as [Hkeys Hes]. rewrite Hkeys. cbn [andb].
    clear Hkeys. induction IH as [|[k v] es Hv _ IHes]; [reflexivity|].
    cbn in Hes. apply andb_true_iff in Hes as [Hi Hes].
    cbn. cbn [snd] in Hv. now rewrite (Hv Hi), (IHes Hes).
Qed.

Lemma maskable_token_free this v : maskable this v = true -> token_free v = true.
Proof.
  apply object_tree_token_free. intros s Hs.
  apply andb_true_iff in Hs as [Hs _]. apply andb_true_iff in Hs as [Hs _].
  now apply negb_true_iff in Hs.
Qed.

Lemma walk_entries_round_trip this path es r :
  Forall (fun kv => forall p r0,
              maskable this (snd kv) = true -> p <> [] ->
              exists v' r', walk this (snd kv) p r0 = Ok (v', r')
                            /\ decodeBody this v' = Ok (snd kv)) es ->
  forallb (fun kv => match kv with (_, v') => maskable this v' end) es = true ->
  exists es' r', walk_entries this path es r = Ok (es', r')
                 /\ decode_entries this es' = Ok es.
Proof.
  intros Hall. revert r.
  induction Hall as [|[k v] es Hv _ IH]; intros r Hes; cbn [walk_entries].
  - exists [], r. now split.
  - cbn in Hes. apply andb_true_iff in Hes as [Hi Hes]. cbn [snd] in Hv.
    destruct (Hv (path ++ [k]) r Hi) as (v' & r1 & Hwalk & Hdecode);
      [now destruct path|].
    destruct (IH r1 Hes) as (rest & r2 & Hrest & Hdrest).
    exists ((k, v') :: rest), r2. unfold bind, ret. rewrite Hwalk, Hrest.
    split; [reflexivity|]. cbn [decode_entries]. now rewrite Hdecode, Hdrest.
Qed.

Lemma walk_round_trip this v path r :
  maskable this v = true ->
  path <> [] \/ is_object v = true ->
  exists v' r', walk this v path r = Ok (v', r') /\ decodeBody this v' = Ok v.
Proof.
  revert path r. induction v as [ | | b | n | s | items _ | es IH]
    using Value_nested_ind; intros path r Hmask Hpath; try discriminate.
  - destruct Hpath as [Hpath|Hobj]; [|discriminate].
    unfold maskable in Hmask. cbn [object_tree] in Hmask.
    apply andb_true_iff in Hmask as [Hmask Hregex].
    apply andb_true_iff in Hmask as [Hcolon Hformed].
    apply negb_true_iff in Hcolon. cbn [walk].
    destruct (walk_string_outcome this s path r Hregex Hpath) as [-> | ->].
    + exists (VString s), r. split; [reflexivity|]. cbn. now rewrite Hcolon.
    + exists (VString (token_of this (next_iv r) s)), (advance r 16).
      split; [reflexivity|]. cbn [decodeBody].
      rewrite (decodeValue_token_of this (next_iv r) s (length_next_iv r) Hformed).
      unfold token_of. rewrite includes_char_append. cbn. now rewrite orb_true_r.
  - unfold maskable in Hmask. cbn [object_tree] in Hmask.
    apply andb_true_iff in Hmask as [Hkeys Hes].
    destruct (own_keys_spec es Hkeys) as [Hdup Hproto].
    rewrite (walk_object this es path r Hdup Hproto).
    destruct (walk_entries_round_trip this path es r) as (es' & r' & Hwalk & Hdecode).
    + eapply Forall_impl; [|exact IH]. intros kv Hkv p r0 Hm Hp.
      apply Hkv; [exact Hm | now left].
    + exact Hes.
    + exists (VObject es'), r'. unfold bind, ret. rewrite Hwalk.
      split; [reflexivity|].
      assert (Hkeys' : own_keys es' = true).
      { unfold own_keys. rewrite (walk_entries_keys _ _ _ _ _ _ Hwalk). exact Hkeys. }
      rewrite (decodeBody_object this es' Hkeys'). now rewrite Hdecode.
Qed.
End RoundTripFacts.

(** X14. A body in which no string holds a colon is returned by
    [decodeBody] exactly as it is: objects (with distinct own keys) with
    their keys in order, arrays with their elements, numbers, booleans
    and null untouched. *)
Theorem decodeBody_keeps_token_free_body `{NodeCrypto}
        (this : Sanitizer) (v : Value) :
  token_free v = true -> decodeBody this v = Ok v.
Proof. apply decodeBody_token_free. Qed.

Lemma decodeBody_keeps_token_free_body_witness :
  decodeBody demo sample_body = Ok sample_body.
Proof.
  apply (decodeBody_keeps_token_free_body demo sample_body). reflexivity.
Defined.

(** X15. Sanitize, then decode.  For a body that is a tree of objects
    (with distinct own keys) whose leaves are strings that hold no colon
    and no unpaired surrogate and are matched by no configured pattern,
    [sanitizeObject] returns a value on every route and under every
    choice of [fieldsToSanitize], [fieldsToSkip] and route lists, and
    [decodeBody] applied to that value gives the original body back. *)
Theorem sanitize_then_decode `{NodeCrypto} `{RegExpEngine}
        (this : Sanitizer) (obj : Value) (route : string) (r : Rng) :
  maskable this obj = true ->
  is_object obj = true ->
  exists v' r',
    sanitizeObject this obj route r = Ok (v', r') /\ decodeBody this v' = Ok obj.
Proof.
  intros Hmask Hobj.
  assert (Hself : decodeBody this obj = Ok obj)
    by (apply decodeBody_token_free; now apply (maskable_token_free this)).
  unfold sanitizeObject.
  destruct (truthy (disable (cfg this))); [exists obj, r; now split|].
  destruct (route_excluded this route); [exists obj, r; now split|].
  apply walk_round_trip; [assumption | now right].
Qed.

Lemma sanitize_then_decode_witness :
  exists v' r',
    sanitizeObject {| cfg := signup_config |}
      (VObject [("user", signup_body); ("note", VString "hello")]) "/signup" demo_rng
    = Ok (v', r')
    /\ decodeBody {| cfg := signup_config |} v'
       = Ok (VObject [("user", signup_body); ("note", VString "hello")]).
Proof.
  apply (sanitize_then_decode {| cfg := signup_config |}
           (VObject [("user", signup_body); ("note", VString "hello")])
           "/signup" demo_rng); reflexivity.
Defined.

(** ** The Express adapter *)

(** X16. The handler of [expressMiddleware] replaces the body of the
    request by [sanitizeObject] of it, on the route [req.url] (the empty
    route when the request has none), and leaves the rest of the request
    alone; it throws exactly when [sanitizeObject] does.  Its own test of
    the route lists changes nothing: [sanitizeObject] makes the same
    test. *)
Theorem expressMiddleware_sanitizes_body `{NodeCrypto} `{RegExpEngine}
        (this : Sanitizer) (req : Request) (r : Rng) :
  expressMiddleware this req r
  = (body' <- sanitizeObject this (req_body req)
                (match req_url req with Some u => u | None => "" end) ;;
     ret {| req_url := req_url req; req_body := body' |}) r.
Proof.
  unfold expressMiddleware, sanitizeObject, bind.
  destruct (route_excluded this _) eqn:Hroute.
  - destruct (truthy (disable (cfg this))); now destruct req.
  - destruct (truthy (disable (cfg this))); [now destruct req | reflexivity].
Qed.

(** ** Field names that decide *)

Lemma toLowerCase_append a b :
  toLowerCase (a ++ b) = (toLowerCase a ++ toLowerCase b)%string.
Proof. induction a as [|c a IH]; cbn; [reflexivity | now rewrite IH]. Qed.

Lemma strip_prefix_append w s : strip_prefix w (w ++ s) = Some s.
Proof.
  induction w as [|c w IH]; cbn; [reflexivity|].
  now rewrite Ascii.eqb_refl.
Qed.

(** A name that holds [pan] in any case satisfies /pan|pan_card/ once
    lowered. *)
Lemma pan_in_key a w b :
  toLowerCase w = "pan" -> test re_pan_key (toLowerCase (a ++ w ++ b)) = true.
Proof.
  intros Hw. rewrite !toLowerCase_append, Hw.
  unfold test. cbn [re_pan_key unanchored anchored_start].
  apply match_anywhere_append. unfold match_at.
  cbn [body re_pan_key unanchored match_here anchored_end].
  now rewrite strip_prefix_append.
Qed.

(** X17. In auto-detection a field whose name holds the letters [pan], in
    any case and anywhere in the name ([pan], [PanCard], but also
    [company] or [expand]), is classified [pan_card] and masked whatever
    its value is. *)
Theorem auto_detect_masks_pan_named_field `{NodeCrypto} `{RegExpEngine}
        (this : Sanitizer) (val : string) (path : list string) (a w b : string)
        (r : Rng) :
  fieldsToSanitize (cfg this) = None ->
  opt_includes (fieldsToSkip (cfg this)) (Some (a ++ w ++ b)%string) = false ->
  no_pattern_applies (regexToSanitize (cfg this)) val = true ->
  last_segment path = Some (a ++ w ++ b)%string ->
  toLowerCase w = "pan" ->
  detectPatternToSanitize (Some (a ++ w ++ b)%string) val = Ok pan_card
  /\ walk this (VString val) path r
     = Ok (VString (token_of this (next_iv r) val), advance r 16).
Proof.
  intros Hfields Hskip Hregex Hkey Hw.
  assert (Hpan : detectPatternToSanitize (Some (a ++ w ++ b)%string) val = Ok pan_card).
  { unfold detectPatternToSanitize.
    now rewrite (pan_in_key a w b Hw), orb_true_r. }
  split; [exact Hpan|]. cbn [walk].
  now rewrite (walk_string_auto this val path _ r Hfields Hskip Hregex Hkey _ Hpan).
Qed.

Lemma auto_detect_masks_pan_named_field_witness :
  detectPatternToSanitize (Some ("com" ++ "Pan" ++ "y")%string) "Acme" = Ok pan_card
  /\ walk demo (VString "Acme") ["comPany"] demo_rng
     = Ok (VString (token_of demo (next_iv demo_rng) "Acme"), advance demo_rng 16).
Proof.
  apply (auto_detect_masks_pan_named_field demo "Acme" ["comPany"] "com" "Pan" "y"
           demo_rng); reflexivity.
Defined.

(** ** An empty list of fields *)

(** X18. [fieldsToSanitize: []] switches masking off.  An empty array is
    truthy, so the engine is in explicit mode with no field to mask: a
    string that no configured pattern matches is returned as it is under
    every path, auto-detection is not run, and even a bare string at the
    root is returned instead of throwing. *)
Theorem empty_fieldsToSanitize_masks_nothing `{NodeCrypto} `{RegExpEngine}
        (this : Sanitizer) (val : string) (path : list string) (r : Rng) :
  fieldsToSanitize (cfg this) = Some [] ->
  no_pattern_applies (regexToSanitize (cfg this)) val = true ->
  walk this (VString val) path r = Ok (VString val, r).
Proof.
  intros Hfields Hregex. cbn [walk]. unfold walk_string.
  destruct (opt_includes (fieldsToSkip (cfg this)) (last_segment path));
    [reflexivity|].
  unfold bind at 1. rewrite (regex_step_none this val r Hregex), Hfields.
  now destruct (last_segment path).
Qed.

Lemma empty_fieldsToSanitize_masks_nothing_witness :
  walk {| cfg := empty_fields_config |} (VString "4111111111111111") [] demo_rng
  = Ok (VString "4111111111111111", demo_rng)
  /\ walk {| cfg := empty_fields_config |} (VString "john@example.com") ["email"]
          demo_rng
     = Ok (VString "john@example.com", demo_rng).
Proof.
  split.
  - apply (empty_fieldsToSanitize_masks_nothing {| cfg := empty_fields_config |}
             "4111111111111111" [] demo_rng); reflexivity.
  - apply (empty_fieldsToSanitize_masks_nothing {| cfg := empty_fields_config |}
             "john@example.com" ["email"] demo_rng); reflexivity.
Defined.

(** ** The Luhn checksum *)

Lemma luhn_loop_step num i sum alt :
  luhn_loop num (S i) sum alt
  = luhn_loop num i (number_add sum (luhn_term alt (String.get i num))) (negb alt).
Proof. reflexivity. Qed.

Lemma luhn_loop_NaN num i alt : luhn_loop num i None alt = None.
Proof. revert alt; induction i as [|i IH]; intros alt; [reflexivity | apply IH]. Qed.

Lemma luhn_loop_agree num num' i1 sum alt :
  (forall i, i < i1 -> String.get i num = String.get i num') ->
  luhn_loop num i1 sum alt = luhn_loop num' i1 sum alt.
Proof.
  revert sum alt; induction i1 as [|i IH]; intros sum alt Hagree; [reflexivity|].
  rewrite !luhn_loop_step, (Hagree i) by lia. apply IH. intros k Hk. apply Hagree. lia.
Qed.

Lemma luhn_loop_shift num i1 s alt x t :
  luhn_loop num i1 (Some s) alt = Some x ->
  luhn_loop num i1 (Some (s + t)) alt = Some (x + t).
Proof.
  revert s alt; induction i1 as [|i IH]; intros s alt.
  - cbn. now intros [= ->].
  - rewrite !luhn_loop_step.
    destruct (luhn_term alt (String.get i num)) as [d|]; cbn [number_add].
    + intros Hx. replace (s + t + d) with (s + d + t) by lia. now apply IH.
    + now rewrite luhn_loop_NaN.
Qed.

(** The term of a digit is at most 9, and two different digits have
    different terms. *)
Lemma luhn_term_digit alt c x :
  luhn_term alt c = Some x ->
  x <= 9 /\ exists ch, c = Some ch /\ digit ch = true.
Proof.
  unfold luhn_term, parseInt. destruct c as [ch|]; [|now destruct alt].
  destruct (digit ch) eqn:Hd; [|now destruct alt].
  assert (Hrange : nat_of_ascii ch - 48 <= 9).
  { unfold digit, in_range in Hd. apply andb_true_iff in Hd as [_ Hhi].
    apply Nat.leb_le in Hhi. change (nat_of_ascii "9") with 57 in Hhi. lia. }
  destruct alt.
  - destruct (Nat.ltb_spec 9 ((nat_of_ascii ch - 48) * 2)); intros [= <-];
      (split; [lia | eauto]).
  - intros [= <-]. split; [lia | eauto].
Qed.

Lemma luhn_term_inj alt c c' x :
  luhn_term alt (Some c) = Some x -> luhn_term alt (Some c') = Some x -> c = c'.
Proof.
  intros Hc Hc'.
  destruct (luhn_term_digit _ _ _ Hc) as (_ & ch & [= <-] & Hd).
  destruct (luhn_term_digit _ _ _ Hc') as (_ & ch' & [= <-] & Hd').
  unfold luhn_term, parseInt in Hc, Hc'. rewrite Hd in Hc. rewrite Hd' in Hc'.
  unfold digit, in_range in Hd, Hd'.
  apply andb_true_iff in Hd as [Hlo Hhi]. apply andb_true_iff in Hd' as [Hlo' Hhi'].
  apply Nat.leb_le in Hlo, Hhi, Hlo', Hhi'.
  change (nat_of_ascii "0") with 48 in Hlo, Hlo'.
  change (nat_of_ascii "9") with 57 in Hhi, Hhi'.
  assert (Heq : nat_of_ascii c = nat_of_ascii c').
  { destruct alt.
    - destruct (Nat.ltb_spec 9 ((nat_of_ascii c - 48) * 2)),
        (Nat.ltb_spec 9 ((nat_of_ascii c' - 48) * 2));
        injection Hc as Hc; injection Hc' as Hc'; lia.
    - injection Hc as Hc; injection Hc' as Hc'; lia. }
  rewrite <- (ascii_nat_embedding c), <- (ascii_nat_embedding c'). now rewrite Heq.
Qed.

(** Two strings that differ at index [j] alone, read from index [j + k]
    down: their sums differ by the terms of the two characters at [j]. *)
Lemma luhn_loop_one_change num num' j k s alt total total' :
  (forall i, i <> j -> String.get i num = String.get i num') ->
  String.get j num <> String.get j num' ->
  luhn_loop num (S j + k) (Some s) alt = Some total ->
  luhn_loop num' (S j + k) (Some s) alt = Some total' ->
  exists x x', total + x' = total' + x /\ x <= 9 /\ x' <= 9 /\ x <> x'.
Proof.
  intros Hagree Hdiff. revert s alt.
  induction k as [|k IH]; intros s alt.
  - rewrite Nat.add_0_r, !luhn_loop_step.
    destruct (luhn_term alt (String.get j num)) as [x|] eqn:Hx;
      [|cbn [number_add]; now rewrite luhn_loop_NaN].
    destruct (luhn_term alt (String.get j num')) as [x'|] eqn:Hx';
      [|cbn [number_add]; intros _; now rewrite luhn_loop_NaN].
    cbn [number_add].
    rewrite <- (luhn_loop_agree num num' j) by (intros i Hi; apply Hagree; lia).
    intros HS HS'. exists x, x'.
    apply (luhn_loop_shift _ _ _ _ _ x') in HS.
    apply (luhn_loop_shift _ _ _ _ _ x) in HS'.
    replace (s + x' + x) with (s + x + x') in HS' by lia.
    rewrite HS in HS'. injection HS' as HS'.
    destruct (luhn_term_digit _ _ _ Hx) as (Hle & ch & Hch & _).
    destruct (luhn_term_digit _ _ _ Hx') as (Hle' & ch' & Hch' & _).
    repeat split; try assumption.
    intros ->. apply Hdiff. rewrite Hch, Hch' in *. f_equal.
    exact (luhn_term_inj alt ch ch' x' Hx Hx').
  - replace (S j + S k) with (S (S j + k)) by lia. rewrite !luhn_loop_step.
    rewrite <- (Hagree (S j + k)) by lia.
    destruct (luhn_term alt (String.get (S j + k) num)) as [t|];
      [|cbn [number_add]; now rewrite luhn_loop_NaN].
    cbn [number_add]. apply IH.
Qed.

Lemma get_all_chars p s :
  (forall i, i < String.length s -> exists c, String.get i s = Some c /\ p c = true) ->
  all_chars p s = true.
Proof.
  induction s as [|c s IH]; intros Hall; [reflexivity|]. cbn [all_chars].
  destruct (Hall 0) as (c0 & [= <-] & ->); [cbn; lia|]. cbn [andb].
  apply IH. intros i Hi. apply (Hall (S i)). cbn. lia.
Qed.

(** X19. [luhnAlgorithm] answers [true] only for strings made of decimal
    digits alone: one character that is not a digit (a space, a dash, a
    letter) makes the sum [NaN] and the answer [false]. *)
Theorem luhnAlgorithm_digits_only (num : string) :
  luhnAlgorithm num = true -> all_chars digit num = true.
Proof.
  intros Hluhn. apply get_all_chars. exact (luhnAlgorithm_digits num Hluhn).
Qed.

Lemma luhnAlgorithm_digits_only_witness :
  all_chars digit "4111111111111111" = true.
Proof. apply (luhnAlgorithm_digits_only "4111111111111111"). reflexivity. Defined.

(** X20. [luhnAlgorithm] catches every single wrong character: if a
    string passes, no string of the same length that differs from it at
    exactly one index passes. *)
Theorem luhnAlgorithm_detects_one_change (num num' : string) (j : nat) :
  String.length num' = String.length num ->
  j < String.length num ->
  (forall i, i <> j -> String.get i num = String.get i num') ->
  String.get j num <> String.get j num' ->
  luhnAlgorithm num = true ->
  luhnAlgorithm num' = false.
Proof.
  intros Hlen Hj Hagree Hdiff. unfold luhnAlgorithm. rewrite Hlen.
  replace (String.length num) with (S j + (String.length num - S j)) by lia.
  destruct (luhn_loop num _ (Some 0) false) as [total|] eqn:HS; [|discriminate].
  destruct (luhn_loop num' _ (Some 0) false) as [total'|] eqn:HS'; [|reflexivity].
  destruct (luhn_loop_one_change _ _ _ _ _ _ _ _ Hagree Hdiff HS HS')
    as (x & x' & Hsum & Hx & Hx' & Hne).
  intros Hmod. apply Nat.eqb_eq in Hmod. apply Nat.eqb_neq.
  intros Hmod'.
  apply Nat.Div0.mod_divides in Hmod as [q Hq].
  apply Nat.Div0.mod_divides in Hmod' as [q' Hq'].
  lia.
Qed.

Lemma luhnAlgorithm_detects_one_change_witness :
  luhnAlgorithm "4111111111111181" = false.
Proof.
  apply (luhnAlgorithm_detects_one_change "4111111111111111" "4111111111111181" 14);
    [reflexivity | cbn; lia | | cbn; discriminate | reflexivity].
  intros i Hi. do 16 (destruct i as [|i]; [first [reflexivity | congruence]|]).
  reflexivity.
Defined.

(** ** What the classifier and the configuration never do *)

(** X21. The classifier answers [credit_card] only for a field whose
    lowered name holds [credit] or [debit]: the value never decides, not
    even one of 14 to 18 characters that passes the Luhn checksum,
    because such a value begins with ten digits and an earlier rule has
    answered. *)
Theorem credit_card_needs_card_name (key value : string) :
  detectPatternToSanitize (Some key) value = Ok credit_card ->
  test re_card_key (toLowerCase key) = true.
Proof. apply credit_card_only_by_key. Qed.

Lemma credit_card_needs_card_name_witness :
  test re_card_key (toLowerCase "creditLine") = true.
Proof. apply (credit_card_needs_card_name "creditLine" "hello"). reflexivity. Defined.

(** X22. [detectors] is never read: [sanitizeObject] gives the same
    result whatever that field of the configuration holds. *)
Theorem detectors_not_read `{NodeCrypto} `{RegExpEngine}
        (c : PiiSanitizerConfig) (d : option PiiType) (obj : Value)
        (route : string) (r : Rng) :
  sanitizeObject {| cfg := with_detectors c d |} obj route r
  = sanitizeObject {| cfg := c |} obj route r.
Proof.
  unfold sanitizeObject, route_excluded. cbn [cfg with_detectors disable
    allowlistRoutes denylistRoutes].
  destruct (truthy (disable c)); [reflexivity|].
  match goal with |- (if ?b then _ else _) _ = _ => destruct b end; [reflexivity|].
  apply walk_ext. reflexivity.
Qed.

Section DecodeConfigFacts.
Context `{NodeCrypto}.

Lemma decodeValue_same_secret this other s :
  signingSecret (cfg other) = signingSecret (cfg this) ->
  decodeValue other s = decodeValue this s.
Proof. intros Hsecret. unfold decodeValue, getKey. now rewrite Hsecret. Qed.

Lemma decodeBody_same_secret this other v :
  signingSecret (cfg other) = signingSecret (cfg this) ->
  decodeBody other v = decodeBody this v.
Proof.
  intros Hsecret. induction v as [ | | b | n | s | items IH | es IH]
    using Value_nested_ind; try reflexivity.
  - cbn [decodeBody]. now rewrite (decodeValue_same_secret this other s Hsecret).
  - rewrite !decodeBody_VArray. f_equal.
    induction IH as [|item items Hitem _ IHitems]; [reflexivity|].
    cbn [decode_items]. now rewrite Hitem, IHitems.
  - rewrite !decodeBody_VObject. generalize (@nil (string * Value)) as out.
    induction IH as [|[k v] es Hv _ IHes]; intros out; [reflexivity|].
    cbn [decode_each]. cbn [snd] in Hv. rewrite Hv.
    destruct (decodeBody this v); cbn [Res_bind]; [apply IHes | reflexivity].
Qed.
End DecodeConfigFacts.

(** X23. [decodeBody] reads the secret and nothing else of the
    configuration: two sanitizers with the same [signingSecret] decode
    every body alike, so neither [disable], nor the route lists, nor the
    field lists gate decoding. *)
Theorem decodeBody_reads_only_the_secret `{NodeCrypto}
        (this other : Sanitizer) (v : Value) :
  signingSecret (cfg other) = signingSecret (cfg this) ->
  decodeBody other v = decodeBody this v.
Proof. apply decodeBody_same_secret. Qed.

Lemma decodeBody_reads_only_the_secret_witness :
  decodeBody {| cfg := disabled_config |}
    (VObject [("email", VString (token_of demo (next_iv demo_rng) "john@example.com"))])
  = decodeBody demo
      (VObject [("email", VString (token_of demo (next_iv demo_rng) "john@example.com"))]).
Proof.
  apply (decodeBody_reads_only_the_secret demo {| cfg := disabled_config |}).
  reflexivity.
Defined.

(** X24. A configured pattern that does not compile is found out only
    when a string reaches it: a string leaf that is not skipped, and that
    the patterns before the bad one miss, makes [walk] throw a
    [SyntaxError], whatever the patterns after it are. *)
Theorem bad_pattern_throws_at_the_leaf `{NodeCrypto} `{RegExpEngine}
        (this : Sanitizer) (val : string) (path : list string)
        (before : list string) (reStr : string) (after : list string) (r : Rng) :
  opt_includes (fieldsToSkip (cfg this)) (last_segment path) = false ->
  regexToSanitize (cfg this) = Some (before ++ reStr :: after) ->
  forallb (pattern_misses val) before = true ->
  RegExp_compile reStr = None ->
  walk this (VString val) path r = Throw SyntaxError.
Proof.
  intros Hskip Hpatterns Hmiss Hbad. cbn [walk]. unfold walk_string.
  rewrite Hskip, Hpatterns.
  destruct (before ++ reStr :: after) as [|p ps] eqn:Hlist; [now destruct before|].
  rewrite <- Hlist. clear Hlist. unfold bind at 1.
  replace (regex_loop this (before ++ reStr :: after) val r) with (@Throw (option string * Rng) SyntaxError);
    [reflexivity|].
  induction before as [|q before IH]; cbn [app regex_loop].
  - unfold bind, lift, RegExp_new. now rewrite Hbad.
  - cbn in Hmiss. apply andb_true_iff in Hmiss as [Hone Hrest].
    unfold pattern_misses in Hone. unfold bind at 1. unfold lift, RegExp_new.
    destruct (RegExp_compile q) as [re|]; [|discriminate].
    apply negb_true_iff in Hone. rewrite Hone. now apply IH.
Qed.

Lemma bad_pattern_throws_at_the_leaf_witness :
  walk {| cfg := bad_pattern_config |} (VString "9876543210") ["phone"] demo_rng
  = Throw SyntaxError
  /\ walk {| cfg := bad_pattern_config |} (VString "9876543210") ["note"] demo_rng
     = Ok (VString "9876543210", demo_rng).
Proof.
  split; [|reflexivity].
  apply (bad_pattern_throws_at_the_leaf {| cfg := bad_pattern_config |} "9876543210"
           ["phone"] [] "(" ["\d{10}"] demo_rng); reflexivity.
Defined.
